(** * reckt: explicit panics that may reach a root of the call graph

    A shallow embedding of [reckt.go].  The analysis walks a call graph
    (package [golang.org/x/tools/go/callgraph]) backwards from every
    [panic] instruction of an SSA program (package
    [golang.org/x/tools/go/ssa]) until it meets the root, a function
    started by a [go] statement, or a function whose deferred calls all
    [recover].

    Go pointers are addresses ([positive]); a nullable pointer is an
    [option], [None] being [nil].  Call-graph nodes are mutually
    referencing, so they live in a store ([gmap] from addresses to nodes)
    and are dereferenced explicitly; SSA functions and instructions are
    immutable once built and are embedded by value together with their
    address. *)

From stdpp Require Import base option list gmap strings fin_maps fin_sets.

(** ** Outcomes of a Go computation *)

(** A Go call either returns, or the runtime panics (nil dereference,
    slice bounds out of range).  [OutOfFuel] belongs to the embedding
    only: recursive Go functions are given a recursion budget. *)
Inductive Res (A : Type) : Type :=
  | Ok (a : A)
  | RuntimePanic
  | OutOfFuel.
Arguments Ok {A} a.
Arguments RuntimePanic {A}.
Arguments OutOfFuel {A}.

#[global] Instance Res_ret : MRet Res := λ A a, Ok a.
#[global] Instance Res_bind : MBind Res := λ A B k r,
  match r with
  | Ok a => k a
  | RuntimePanic => RuntimePanic
  | OutOfFuel => OutOfFuel
  end.

(** ** Package ssa *)
Module ssa.

(** The callee operand of a call: only the dynamic type of the
    [ssa.Value] matters to the analysis. *)
Inductive Value : Type :=
  | Builtin (Name : string)
  | FunctionValue (addr : positive)
  | OtherValue.

Record CallCommon : Type := { Value_ : Value }.

(** [*ssa.Panic]; [Parent] is the address of the enclosing function. *)
Record Panic : Type := { panic_addr : positive; Parent : positive }.

Inductive Instruction : Type :=
  | Call (addr : positive) (Call_ : CallCommon)
  | Defer (addr : positive) (Call_ : CallCommon)
  | Go (addr : positive) (Call_ : CallCommon)
  | PanicInstr (p : Panic)
  | OtherInstr (addr : positive).

Record BasicBlock : Type := { Instrs : list Instruction }.

Record Function : Type := { func_addr : positive; Blocks : list BasicBlock }.

(** The interface [ssa.CallInstruction]: its dynamic type and the
    address of the instruction. *)
Inductive CallInstruction : Type :=
  | CallSite (addr : positive)
  | DeferSite (addr : positive)
  | GoSite (addr : positive).

#[global] Instance Value_eq_dec : EqDecision Value.
Proof. solve_decision. Defined.
#[global] Instance CallCommon_eq_dec : EqDecision CallCommon.
Proof. solve_decision. Defined.
#[global] Instance Panic_eq_dec : EqDecision Panic.
Proof. solve_decision. Defined.
#[global] Instance Instruction_eq_dec : EqDecision Instruction.
Proof. solve_decision. Defined.
#[global] Instance CallInstruction_eq_dec : EqDecision CallInstruction.
Proof. solve_decision. Defined.

End ssa.

(** ** Package callgraph *)
Module callgraph.

(** [callgraph.Edge]: [Caller] and [Callee] are [*Node], [Site] is an
    interface value; each of them may be nil. *)
Record Edge : Type := {
  Caller : option positive;
  Site : option ssa.CallInstruction;
  Callee : option positive
}.

(** [callgraph.Node]. *)
Record Node : Type := {
  Func : option ssa.Function;
  In : list Edge;
  Out : list Edge
}.

(** [callgraph.Graph]: [Nodes] maps the address of a function to the
    address of its node; a missing key reads as nil. *)
Record Graph : Type := {
  Root : option positive;
  Nodes : gmap positive positive
}.

#[global] Instance Edge_eq_dec : EqDecision Edge.
Proof. solve_decision. Defined.

End callgraph.

(** The store holding the call-graph nodes. *)
Abbreviation Heap := (gmap positive callgraph.Node).

(** [*n] for a [*callgraph.Node]. *)
Definition deref (h : Heap) (n : option positive) : Res callgraph.Node :=
  match n with
  | None => RuntimePanic
  | Some a =>
    match h !! a with
    | Some nd => Ok nd
    | None => RuntimePanic
    end
  end.

(** ** Iteration order of Go maps

    [for ... := range m] visits the entries of a map in an unspecified
    order.  A [MapOrder] fixes one such order for every map. *)
Record MapOrder : Type := {
  range : ∀ V : Type, gmap positive V → list (positive * V);
  range_perm : ∀ (V : Type) (m : gmap positive V), range V m ≡ₚ map_to_list m
}.
Arguments range _ {V} m.

Definition listing_order : MapOrder :=
  {| range := λ V m, map_to_list m;
     range_perm := λ V m, reflexivity (map_to_list m) |}.

Program Definition reverse_order : MapOrder :=
  {| range := λ V m, reverse (map_to_list m) |}.
Next Obligation. intros V m. apply reverse_Permutation. Qed.

(** A search calls [end] at most once for a node (the node is marked
    seen before), and every call ranges over a map [defers] of its own:
    a [MapOrders] gives, for each node, the order met by the call of
    [end] on it. *)
Abbreviation MapOrders := (option positive → MapOrder).

Definition always (ord : MapOrder) : MapOrders := λ _, ord.

(** ** hasRecover *)

Definition is_recover_call (i : ssa.Instruction) : bool :=
  match i with
  | ssa.Call _ c =>
    match ssa.Value_ c with
    | ssa.Builtin name => bool_decide (name = "recover")
    | _ => false
    end
  | _ => false
  end.

Fixpoint hasRecover_instrs (instrs : list ssa.Instruction) : bool :=
  match instrs with
  | [] => false
  | i :: instrs' => if is_recover_call i then true else hasRecover_instrs instrs'
  end.

Fixpoint hasRecover_blocks (blocks : list ssa.BasicBlock) : bool :=
  match blocks with
  | [] => false
  | b :: blocks' =>
    if hasRecover_instrs (ssa.Instrs b) then true else hasRecover_blocks blocks'
  end.

Definition hasRecover (f : ssa.Function) : bool :=
  hasRecover_blocks (ssa.Blocks f).

(** ** allrecovers *)

(** [f.Func] followed by the first access [f.Blocks] inside
    [hasRecover]: nil on either pointer is a runtime panic. *)
Fixpoint allrecovers (h : Heap) (o : list (option positive)) : Res bool :=
  match o with
  | [] => Ok true
  | f :: o' =>
    nd ← deref h f;
    match callgraph.Func nd with
    | None => RuntimePanic
    | Some fn => if hasRecover fn then allrecovers h o' else Ok false
    end
  end.

(** ** end *)

(** One round of the first loop of [end]:
    [defers[dn] = append(defers[dn], o.Callee)] when the site is a
    [*ssa.Defer]. *)
Definition add_defer (defers : gmap positive (list (option positive)))
    (o : callgraph.Edge) : gmap positive (list (option positive)) :=
  match callgraph.Site o with
  | Some (ssa.DeferSite dn) =>
    <[dn := default [] (defers !! dn) ++ [callgraph.Callee o]]> defers
  | _ => defers
  end.

Definition collect_defers (out : list callgraph.Edge)
    : gmap positive (list (option positive)) :=
  foldl add_defer ∅ out.

(** The second loop of [end], over the values of [defers] in the order
    chosen. *)
Fixpoint some_allrecovers (h : Heap)
    (es : list (list (option positive))) : Res bool :=
  match es with
  | [] => Ok false
  | e :: es' =>
    b ← allrecovers h e;
    if b : bool then Ok true else some_allrecovers h es'
  end.

Definition is_go_site (e : callgraph.Edge) : bool :=
  match callgraph.Site e with
  | Some (ssa.GoSite _) => true
  | _ => false
  end.

(** The third loop of [end]. *)
Fixpoint some_go_site (ins : list callgraph.Edge) : bool :=
  match ins with
  | [] => false
  | e :: ins' => if is_go_site e then true else some_go_site ins'
  end.

(** [end(root, n)] returns [(isend, isdeadend)]. *)
Definition end_ (ord : MapOrder) (h : Heap) (root n : option positive)
    : Res (bool * bool) :=
  match n with
  | None => Ok (true, false)
  | Some _ =>
    nd ← deref h n;
    let defers := collect_defers (callgraph.Out nd) in
    dead ← some_allrecovers h (range ord defers).*2;
    if dead : bool then Ok (false, true)
    else if decide (n = root) then Ok (true, false)
    else if some_go_site (callgraph.In nd) then Ok (true, false)
    else Ok (false, false)
  end.

(** ** pathToRoot *)

(** The variables [stack] and [seen] captured by the closure [search].
    [seen] is a [map[*callgraph.Node]bool] in which only [true] is ever
    stored: a set of node pointers, nil included. *)
Record SearchState : Type := {
  stack : list callgraph.Edge;
  seen : gset (option positive)
}.

(** [seen[n] = true] *)
Definition mark (n : option positive) (st : SearchState) : SearchState :=
  {| stack := stack st; seen := {[n]} ∪ seen st |}.

(** [stack = append(stack, e)] *)
Definition push (e : callgraph.Edge) (st : SearchState) : SearchState :=
  {| stack := stack st ++ [e]; seen := seen st |}.

(** [stack = stack[:len(stack)-1]]: slicing an empty stack to [-1] is a
    runtime panic. *)
Definition pop (st : SearchState) : Res SearchState :=
  match stack st with
  | [] => RuntimePanic
  | _ :: _ =>
    Ok {| stack := take (length (stack st) - 1) (stack st); seen := seen st |}
  end.

(** What [search] returns: [None] is the nil slice, [Some path] a
    non-nil slice (of any length, zero included). *)
Abbreviation Found := (option (list callgraph.Edge)).

Section search.

Context (ords : MapOrders) (h : Heap) (cg : callgraph.Graph).

(** The loop [for _, e := range n.In] of [search]; [rec] is the
    recursive call. *)
Fixpoint search_callers
    (rec : option positive → SearchState → Res (Found * SearchState))
    (ins : list callgraph.Edge) (st : SearchState)
    : Res (Found * SearchState) :=
  match ins with
  | [] => Ok (None, st)
  | e :: ins' =>
    '(found, st) ← rec (callgraph.Caller e) (push e st);
    match found : Found with
    | Some _ => Ok (Some (stack st), st)
    | None => st ← pop st; search_callers rec ins' st
    end
  end.

(** The closure [search]; [fuel] bounds the depth of the recursion. *)
Fixpoint search (fuel : nat) (n : option positive) (st : SearchState)
    : Res (Found * SearchState) :=
  match fuel with
  | O => OutOfFuel
  | S fuel' =>
    if decide (n ∈ seen st) then Ok (None, st)
    else
      let st := mark n st in
      '(isend, deadend) ← end_ (ords n) h (callgraph.Root cg) n;
      if deadend : bool then Ok (None, st)
      else if isend : bool then Ok (Some (stack st), st)
      else
        nd ← deref h n;
        search_callers (search fuel') (callgraph.In nd) st
  end.

(** [stack := make([]*callgraph.Edge, 0, 32)] and
    [seen := make(map[*callgraph.Node]bool)]. *)
Definition initial_state : SearchState := {| stack := []; seen := ∅ |}.

Definition pathToRoot_fuel (fuel : nat) (p : ssa.Panic) : Res Found :=
  let panicfunc := callgraph.Nodes cg !! ssa.Parent p in
  '(found, _) ← search fuel panicfunc initial_state;
  Ok (found : Found).

(** A recursion budget that is never exhausted (see
    [search_terminates] and [enough_fuel_suffices]): one level for
    every node of the store, one for the nil pointer and one for the
    call that finds its node already seen. *)
Definition enough_fuel : nat := size h + 2.

Definition pathToRoot (p : ssa.Panic) : Res Found :=
  pathToRoot_fuel enough_fuel p.

(** The loop of [main] over the panics: the pairs for which
    "Panic at ... reaches root" and the edges of the path are
    printed.  [len(path)] of a nil slice is 0. *)
Definition len (path : Found) : nat :=
  match path with
  | None => 0
  | Some path => length path
  end.

Fixpoint reported (panics : list ssa.Panic)
    : Res (list (ssa.Panic * list callgraph.Edge)) :=
  match panics with
  | [] => Ok []
  | p :: panics' =>
    path ← pathToRoot p;
    rest ← reported panics';
    if decide (len path ≠ 0) then Ok ((p, default [] path) :: rest)
    else Ok rest
  end.

End search.

(** ** findPanics *)

(** [ssautil.AllFunctions(prog)] is a [map[*ssa.Function]bool]; the
    program is represented by that map, from the address of a function
    to the function. *)
Record Program : Type := { AllFunctions : gmap positive ssa.Function }.

Definition findPanics_instr (panics : list ssa.Panic) (i : ssa.Instruction)
    : list ssa.Panic :=
  match i with
  | ssa.PanicInstr p => panics ++ [p]
  | _ => panics
  end.

Definition findPanics_block (panics : list ssa.Panic) (b : ssa.BasicBlock)
    : list ssa.Panic :=
  foldl findPanics_instr panics (ssa.Instrs b).

Definition findPanics_func (panics : list ssa.Panic) (f : ssa.Function)
    : list ssa.Panic :=
  foldl findPanics_block panics (ssa.Blocks f).

Definition findPanics (ord : MapOrder) (prog : Program) : list ssa.Panic :=
  foldl findPanics_func [] (range ord (AllFunctions prog)).*2.


(** * Vocabulary of the specification *)

(** The function of the node [n] points to, when neither [n] nor its
    [Func] is nil. *)
Definition node_func (h : Heap) (n : option positive) : option ssa.Function :=
  a ← n; nd ← h !! a; callgraph.Func nd.

(** The callee [n] satisfies the suppression detector. *)
Definition suppresses (h : Heap) (n : option positive) : Prop :=
  ∃ f, node_func h n = Some f ∧ hasRecover f = true.

#[global] Instance suppresses_dec h n : Decision (suppresses h n).
Proof.
  unfold suppresses. destruct (node_func h n) as [f|].
  - destruct (hasRecover f) eqn:Hf.
    + left. by exists f.
    + right. intros (f' & Heq & Hf'). congruence.
  - right. by intros (f' & Heq & _).
Defined.

Definition is_defer_site (o : callgraph.Edge) (dn : positive) : Prop :=
  callgraph.Site o = Some (ssa.DeferSite dn).

#[global] Instance is_defer_site_dec o dn : Decision (is_defer_site o dn).
Proof. unfold is_defer_site. apply _. Defined.

(** The deferred-call group of the [Defer] instruction at [dn]: the
    callees of the outgoing edges whose site is that instruction. *)
Definition defer_group (out : list callgraph.Edge) (dn : positive)
    : list (option positive) :=
  callgraph.Callee <$> filter (λ o, is_defer_site o dn) out.

(** Some deferred-call group of the node is non-empty and made of
    suppressing callees only. *)
Definition dead_end (h : Heap) (nd : callgraph.Node) : Prop :=
  ∃ dn, defer_group (callgraph.Out nd) dn ≠ [] ∧
        Forall (suppresses h) (defer_group (callgraph.Out nd) dn).

(** [dead_end] is decidable: a deferred-call group that is not empty is
    the group of the site of one of the outgoing edges. *)
Definition group_suppresses (h : Heap) (out : list callgraph.Edge)
    (o : callgraph.Edge) : Prop :=
  match callgraph.Site o with
  | Some (ssa.DeferSite dn) => Forall (suppresses h) (defer_group out dn)
  | _ => False
  end.

#[global] Instance group_suppresses_dec h out o :
  Decision (group_suppresses h out o).
Proof.
  unfold group_suppresses.
  destruct (callgraph.Site o) as [[a|dn|a]|]; apply _.
Defined.

#[global] Instance dead_end_dec h nd : Decision (dead_end h nd).
Proof.
  destruct (decide (Exists (group_suppresses h (callgraph.Out nd))
                           (callgraph.Out nd))) as [Hex|Hex]; [left|right].
  - apply Exists_exists in Hex as (o & Ho & Hs). unfold group_suppresses in Hs.
    destruct (callgraph.Site o) as [[a|dn|a]|] eqn:Hsite; try done.
    exists dn. split; [|done]. unfold defer_group. intros Hnil.
    apply fmap_nil_inv in Hnil.
    assert (o ∈ filter (λ o, is_defer_site o dn) (callgraph.Out nd)) as Hin
      by by apply list_elem_of_filter.
    rewrite Hnil in Hin. by apply elem_of_nil in Hin.
  - intros (dn & Hne & Hall). apply Hex, Exists_exists.
    unfold defer_group in Hne.
    destruct (filter (λ o, is_defer_site o dn) (callgraph.Out nd))
      as [|o os] eqn:Hfilter; [done|].
    assert (o ∈ filter (λ o, is_defer_site o dn) (callgraph.Out nd)) as Hin
      by (rewrite Hfilter; left).
    apply list_elem_of_filter in Hin as [Hsite Hin].
    exists o. split; [done|]. unfold group_suppresses. by rewrite Hsite.
Defined.

(** The callee of an edge whose site is a [Defer] instruction is a node
    of the store that carries a function: what [callgraph] guarantees
    of the graphs it builds, and what keeps [allrecovers] from
    dereferencing nil. *)
Definition defer_resolves (h : Heap) (o : callgraph.Edge) : Prop :=
  match callgraph.Site o with
  | Some (ssa.DeferSite _) => is_Some (node_func h (callgraph.Callee o))
  | _ => True
  end.

#[global] Instance defer_resolves_dec h o : Decision (defer_resolves h o).
Proof.
  unfold defer_resolves. destruct (callgraph.Site o) as [[a|dn|a]|]; apply _.
Defined.

Definition defers_resolve (h : Heap) (nd : callgraph.Node) : Prop :=
  Forall (defer_resolves h) (callgraph.Out nd).

Definition well_formed (h : Heap) : Prop :=
  map_Forall (λ _ nd, defers_resolve h nd) h.

(** The invariant [n.In[*].Callee == n] documented for
    [callgraph.Node]. *)
Definition in_edges_consistent (h : Heap) : Prop :=
  map_Forall (λ a nd, Forall (λ e, callgraph.Callee e = Some a)
                             (callgraph.In nd)) h.

(** [chain n path]: [path] is a backward chain of call edges that
    starts at the node [n]. *)
Fixpoint chain (n : option positive) (path : list callgraph.Edge) : Prop :=
  match path with
  | [] => True
  | e :: path' => callgraph.Callee e = n ∧ chain (callgraph.Caller e) path'
  end.

(** The panic of an instruction whose dynamic type is [*ssa.Panic]. *)
Definition as_panic (i : ssa.Instruction) : option ssa.Panic :=
  match i with
  | ssa.PanicInstr p => Some p
  | _ => None
  end.

(** Every panic instruction of a function: block after block, in the
    order of the instructions, one entry for each occurrence. *)
Definition function_panics (f : ssa.Function) : list ssa.Panic :=
  ssa.Blocks f ≫= λ b, omap as_panic (ssa.Instrs b).

(** [walk ords h root n path]: starting at [n], the edges of [path] are
    incoming edges of nodes that [end] sends the search through, each
    taken at the caller of the one before, and the caller of the last
    one (or [n], for the empty path) is a node at which [end] stops the
    search with success. *)
Inductive walk (ords : MapOrders) (h : Heap) (root : option positive)
    : option positive → list callgraph.Edge → Prop :=
  | walk_end n :
      end_ (ords n) h root n = Ok (true, false) →
      walk ords h root n []
  | walk_step a nd e path :
      h !! a = Some nd →
      end_ (ords (Some a)) h root (Some a) = Ok (false, false) →
      e ∈ callgraph.In nd →
      walk ords h root (callgraph.Caller e) path →
      walk ords h root (Some a) (e :: path).

(** The pointers a search can meet: nil and the nodes of the store. *)
Definition universe (h : Heap) : gset (option positive) :=
  {[None]} ∪ set_map Some (dom h).

(** What a call [search(n)] that returns has done to [stack] and
    [seen], and what it returns. *)
Definition search_post (ords : MapOrders) (h : Heap) (root : option positive)
    (n : option positive) (st : SearchState) (r : Found * SearchState) : Prop :=
  seen st ⊆ seen r.2 ∧ n ∈ seen r.2 ∧
  match r.1 with
  | None => stack r.2 = stack st
  | Some path =>
    path = stack r.2 ∧ ∃ ext, path = stack st ++ ext ∧ walk ords h root n ext
  end.

(** ** The search with its work counted

    A copy of [search] that also returns how many times the closure was
    entered and which nodes it went past the test [!seen[n]] for; it
    returns what [search] returns (see [search_work_erase]). *)
Record Work : Type := {
  calls : nat;
  expanded : list (option positive)
}.

Definition revisit : Work := {| calls := 1; expanded := [] |}.

Definition expansion (n : option positive) (w : Work) : Work :=
  {| calls := S (calls w); expanded := n :: expanded w |}.

Definition no_work : Work := {| calls := 0; expanded := [] |}.

Definition work_then (w1 w2 : Work) : Work :=
  {| calls := calls w1 + calls w2; expanded := expanded w1 ++ expanded w2 |}.

Section search_work.

Context (ords : MapOrders) (h : Heap) (cg : callgraph.Graph).

Fixpoint search_callers_work
    (rec : option positive → SearchState → Res (Found * SearchState * Work))
    (ins : list callgraph.Edge) (st : SearchState)
    : Res (Found * SearchState * Work) :=
  match ins with
  | [] => Ok (None, st, no_work)
  | e :: ins' =>
    '(found, st, w1) ← rec (callgraph.Caller e) (push e st);
    match found : Found with
    | Some _ => Ok (Some (stack st), st, w1)
    | None =>
      st ← pop st;
      '(found, st, w2) ← search_callers_work rec ins' st;
      Ok (found : Found, st, work_then w1 w2)
    end
  end.

Fixpoint search_work (fuel : nat) (n : option positive) (st : SearchState)
    : Res (Found * SearchState * Work) :=
  match fuel with
  | O => OutOfFuel
  | S fuel' =>
    if decide (n ∈ seen st) then Ok (None, st, revisit)
    else
      let st := mark n st in
      '(isend, deadend) ← end_ (ords n) h (callgraph.Root cg) n;
      if deadend : bool then Ok (None, st, expansion n no_work)
      else if isend : bool then Ok (Some (stack st), st, expansion n no_work)
      else
        nd ← deref h n;
        '(found, st, w) ← search_callers_work (search_work fuel') (callgraph.In nd) st;
        Ok (found : Found, st, expansion n w)
  end.

End search_work.

(** Forgetting the count. *)
Definition erase (r : Res (Found * SearchState * Work)) : Res (Found * SearchState) :=
  '(found, st, _) ← r; Ok (found : Found, st).

(** The number of incoming edges of the nodes of the store that are not
    in [s]; with [s] empty, the number of edges of the graph. *)
Definition unseen_in_edges (h : Heap) (s : gset (option positive)) : nat :=
  sum_list ((λ kv : positive * callgraph.Node,
               if decide (Some kv.1 ∈ s) then 0 else length (callgraph.In kv.2))
            <$> map_to_list h).

Definition in_edge_count (h : Heap) : nat := unseen_in_edges h ∅.

(** A pointer that is nil or points to a node of the store. *)
Definition node_or_nil (h : Heap) (n : option positive) : Prop :=
  match n with
  | Some a => is_Some (h !! a)
  | None => True
  end.

#[global] Instance node_or_nil_dec h n : Decision (node_or_nil h n).
Proof. unfold node_or_nil. destruct n; apply _. Defined.

(** The callers of the incoming edges are nil or nodes of the store. *)
Definition callers_resolve (h : Heap) : Prop :=
  map_Forall (λ _ nd, Forall (λ e, node_or_nil h (callgraph.Caller e))
                             (callgraph.In nd)) h.

Definition nodes_resolve (h : Heap) (cg : callgraph.Graph) : Prop :=
  map_Forall (λ _ a, is_Some (h !! a)) (callgraph.Nodes cg).

(** What a counted search that returns has done: [budget] is 1 for a
    call of the closure and the number of incoming edges for the loop
    over them. *)
Definition work_post (h : Heap) (budget : nat) (st : SearchState)
    (r : Found * SearchState * Work) : Prop :=
  seen st ⊆ seen r.1.2 ∧
  NoDup (expanded r.2) ∧
  (∀ m, m ∈ expanded r.2 →
        (m ∉ seen st) ∧ m ∈ seen r.1.2 ∧ m ∈ universe h) ∧
  calls r.2 + unseen_in_edges h (seen r.1.2) ≤ budget + unseen_in_edges h (seen st).

(** * A program to run the analysis on

    <<
      func main() { a(); g() }          // root
      func a()    { b(); go w() }
      func b()    { panic("b") }
      func w()    { d() }
      func d()    { d(); panic("d") }
      func g()    { defer c(); e() }
      func c()    { recover() }
      func e()    { panic("e") }
      func u()    { defer recover(); panic("u") }   // never called
    >>
    Nodes live at the addresses 1 to 8, functions at ten times the
    address of their node; [u] has no node. *)
Module example.

Local Open Scope positive_scope.

Definition edge (caller : positive) (site : ssa.CallInstruction)
    (callee : positive) : callgraph.Edge :=
  {| callgraph.Caller := Some caller; callgraph.Site := Some site;
     callgraph.Callee := Some callee |}.

Definition main_a := edge 1 (ssa.CallSite 101) 2.
Definition main_g := edge 1 (ssa.CallSite 102) 7.
Definition a_b := edge 2 (ssa.CallSite 201) 3.
Definition a_go_w := edge 2 (ssa.GoSite 202) 5.
Definition w_d := edge 5 (ssa.CallSite 501) 6.
Definition d_d := edge 6 (ssa.CallSite 601) 6.
Definition g_defer_c := edge 7 (ssa.DeferSite 701) 4.
Definition g_e := edge 7 (ssa.CallSite 702) 8.

Definition call (addr : positive) (f : positive) : ssa.Instruction :=
  ssa.Call addr {| ssa.Value_ := ssa.FunctionValue f |}.

Definition panic_b := {| ssa.panic_addr := 301; ssa.Parent := 30 |}.
Definition panic_d := {| ssa.panic_addr := 602; ssa.Parent := 60 |}.
Definition panic_e := {| ssa.panic_addr := 801; ssa.Parent := 80 |}.
Definition panic_u := {| ssa.panic_addr := 902; ssa.Parent := 90 |}.
(** A panic placed in the function of the root node. *)
Definition panic_main := {| ssa.panic_addr := 103; ssa.Parent := 10 |}.

Definition block (instrs : list ssa.Instruction) : ssa.BasicBlock :=
  {| ssa.Instrs := instrs |}.

Definition fn_main : ssa.Function :=
  {| ssa.func_addr := 10; ssa.Blocks := [block [call 101 20; call 102 70]] |}.
Definition fn_a : ssa.Function :=
  {| ssa.func_addr := 20;
     ssa.Blocks := [block [call 201 30;
                           ssa.Go 202 {| ssa.Value_ := ssa.FunctionValue 50 |}]] |}.
Definition fn_b : ssa.Function :=
  {| ssa.func_addr := 30; ssa.Blocks := [block [ssa.PanicInstr panic_b]] |}.
Definition fn_c : ssa.Function :=
  {| ssa.func_addr := 40;
     ssa.Blocks := [block [ssa.Call 401 {| ssa.Value_ := ssa.Builtin "recover" |}]] |}.
Definition fn_w : ssa.Function :=
  {| ssa.func_addr := 50; ssa.Blocks := [block [call 501 60]] |}.
Definition fn_d : ssa.Function :=
  {| ssa.func_addr := 60;
     ssa.Blocks := [block [call 601 60]; block [ssa.PanicInstr panic_d]] |}.
Definition fn_g : ssa.Function :=
  {| ssa.func_addr := 70;
     ssa.Blocks := [block [ssa.Defer 701 {| ssa.Value_ := ssa.FunctionValue 40 |};
                           call 702 80]] |}.
Definition fn_e : ssa.Function :=
  {| ssa.func_addr := 80; ssa.Blocks := [block [ssa.PanicInstr panic_e]] |}.
Definition fn_u : ssa.Function :=
  {| ssa.func_addr := 90;
     ssa.Blocks := [block [ssa.Defer 901 {| ssa.Value_ := ssa.Builtin "recover" |};
                           ssa.PanicInstr panic_u]] |}.

Definition node (f : ssa.Function) (ins outs : list callgraph.Edge)
    : callgraph.Node :=
  {| callgraph.Func := Some f; callgraph.In := ins; callgraph.Out := outs |}.

Definition node_main := node fn_main [] [main_a; main_g].
Definition node_a := node fn_a [main_a] [a_b; a_go_w].
Definition node_b := node fn_b [a_b] [].
Definition node_c := node fn_c [g_defer_c] [].
Definition node_w := node fn_w [a_go_w] [w_d].
Definition node_d := node fn_d [d_d; w_d] [d_d].
Definition node_g := node fn_g [main_g] [g_defer_c; g_e].
Definition node_e := node fn_e [g_e] [].

Definition heap : Heap :=
  list_to_map [(1, node_main); (2, node_a); (3, node_b); (4, node_c);
               (5, node_w); (6, node_d); (7, node_g); (8, node_e)].

Definition graph : callgraph.Graph :=
  {| callgraph.Root := Some 1;
     callgraph.Nodes :=
       list_to_map [(10, 1); (20, 2); (30, 3); (40, 4);
                    (50, 5); (60, 6); (70, 7); (80, 8)] |}.

Definition program : Program :=
  {| AllFunctions :=
       list_to_map [(10, fn_main); (20, fn_a); (30, fn_b); (40, fn_c);
                    (50, fn_w); (60, fn_d); (70, fn_g); (80, fn_e);
                    (90, fn_u)] |}.

(** A store that [callgraph] does not build: [g] with one more deferred
    call, whose edge has a nil callee. *)
Definition nil_callee : callgraph.Edge :=
  {| callgraph.Caller := Some 7; callgraph.Site := Some (ssa.DeferSite 703);
     callgraph.Callee := None |}.

Definition broken_heap : Heap :=
  <[7 := node fn_g [main_g] [g_defer_c; nil_callee; g_e]]> heap.

End example.

(** Settles a decidable statement about the example by evaluation. *)
Ltac by_evaluation := apply (bool_decide_unpack _); vm_compute; exact I.

(** * More of the program *)

(** ** Nodes of a path *)

(** The nodes a path goes through: the node it starts at, then the
    caller of each of its edges. *)
Definition path_nodes (n : option positive) (path : list callgraph.Edge)
    : list (option positive) :=
  n :: (callgraph.Caller <$> path).

(** A node the search is done with, in a search that has seen the nodes
    of [s]: [end] does not stop with success at it and, when [end] sends
    the search through it, the callers of its incoming edges are in
    [s]. *)
Definition finished (ords : MapOrders) (h : Heap) (root : option positive)
    (s : gset (option positive)) (m : option positive) : Prop :=
  end_ (ords m) h root m ≠ Ok (true, false) ∧
  (end_ (ords m) h root m = Ok (false, false) →
   ∀ a nd e, m = Some a → h !! a = Some nd → e ∈ callgraph.In nd →
             callgraph.Caller e ∈ s).

(** Every seen node outside [active] (the nodes whose loop over the
    incoming edges is still running) is finished. *)
Definition closed (ords : MapOrders) (h : Heap) (root : option positive)
    (s active : gset (option positive)) : Prop :=
  ∀ m, m ∈ s → m ∉ active → finished ords h root s m.

(** ** What main prints for one panic *)

(** The pair printed for [p], when [pathToRoot] returns a path of
    non-zero length. *)
Definition printable (ords : MapOrders) (h : Heap) (cg : callgraph.Graph)
    (p : ssa.Panic) : option (ssa.Panic * list callgraph.Edge) :=
  match pathToRoot ords h cg p with
  | Ok (Some (e :: path)) => Some (p, e :: path)
  | _ => None
  end.

(** ** mainPackage *)

(** What a Go function declared with a result and an [error] returns:
    the result with a nil error, or an error with its message. *)
Inductive Result (A : Type) : Type :=
  | Return (a : A)
  | Error (msg : string).
Arguments Return {A} a.
Arguments Error {A} msg.

Module ssa_package.

(** [*ssa.Package] as [mainPackage] reads it: [pkg.Object.Name()] and
    the method [pkg.Func], which returns the function member of a given
    name or nil. *)
Record Package : Type := {
  pkg_addr : positive;
  Object_Name : string;
  Func : string → option ssa.Function
}.

End ssa_package.

(** The two methods of [*ssa.Program] that [mainPackage] calls:
    [AllPackages], by the slice it returns (in the order it returns it),
    and [CreateTestMainPackage], which returns nil when no package has
    tests. *)
Record Packages : Type := {
  AllPackages : list ssa_package.Package;
  CreateTestMainPackage : list ssa_package.Package → option ssa_package.Package
}.

(** The loop [for _, pkg := range pkgs] of [mainPackage] and the error
    after it. *)
Fixpoint first_main (pkgs : list ssa_package.Package)
    : Result ssa_package.Package :=
  match pkgs with
  | [] => Error "no main package"
  | pkg :: pkgs' =>
    if decide (ssa_package.Object_Name pkg = "main") then
      match ssa_package.Func pkg "main" with
      | None => Error "no func main() in main package"
      | Some _ => Return pkg
      end
    else first_main pkgs'
  end.

Definition mainPackage (prog : Packages) (tests : bool)
    : Result ssa_package.Package :=
  let pkgs := AllPackages prog in
  if tests then
    match pkgs with
    | _ :: _ =>
      match CreateTestMainPackage prog pkgs with
      | Some main => Return main
      | None => Error "no tests"
      end
    | [] => Error "no tests"
    end
  else first_main pkgs.

(** ** doCallgraph, loadProgram and main *)

(** [pointer.Config], the two fields that [doCallgraph] sets. *)
Record Config : Type := {
  Mains : list ssa_package.Package;
  BuildCallGraph : bool
}.

(** A call graph with the store its nodes live in. *)
Abbreviation CallGraph := (Heap * callgraph.Graph)%type.

(** A line printed on the standard output by the loop of [main]:
    "Panic at <position of p> reaches root", the position and the text
    of the site of an edge, or the edge itself when its site is nil. *)
Inductive Line : Type :=
  | PanicReachesRoot (p : ssa.Panic)
  | AtSite (site : ssa.CallInstruction)
  | AtEdge (e : callgraph.Edge).

(** How [main] ends: it returns, or calls [os.Exit]. *)
Inductive Status : Type :=
  | Returned
  | Exit (code : Z).

(** A run of the program: the lines it prints on the standard output,
    the text it prints on the standard error, and how it ends
    ([RuntimePanic] when a search panics; what the Go runtime then
    writes is not part of [stderr]). *)
Record Run : Type := {
  stdout : list Line;
  stderr : string;
  status : Res Status
}.

(** [var Usage]. *)
Definition Usage : string := "Usage: reckt [-test] pkg".

(** The line feed that [fmt.Fprintln] adds. *)
Definition newline : string := String (Ascii.ascii_of_nat 10) "".

(** What [flag.Parse()] does with the command line ([os.Args[1:]]), the
    one flag [-tests] being defined: it ends the run itself, after
    writing on the standard error (an undefined flag, a bad value,
    [-h]), or it returns and leaves the value of [*tests] and the
    remaining arguments [flag.Args()]. *)
Inductive Parsed : Type :=
  | ParseExits (err : string) (code : Z)
  | ParseReturns (tests : bool) (args : list string).

(** What [loadProgram] does: it exits, or returns to [main]; [out] is
    what the loader has written on the standard error by then. *)
Inductive Loaded (A : Type) : Type :=
  | LoadExits (err : string) (code : Z)
  | LoadReturns (out : string) (r : Result A).
Arguments LoadExits {A} err code.
Arguments LoadReturns {A} out r.

Section main.

(** [loader.Config] after [FromArgs], and [*loader.Program]. *)
Context {Conf IProg : Type}.

(** The packages [main] works with, taken as they are: [flag.Parse],
    the loader ([conf.FromArgs]; [conf.Load], with the text it writes
    on the standard error, such as the type errors it reports before it
    returns its error), [ssautil.CreateProgram] followed by
    [prog.BuildAll] (the program is read through [findPanics] and
    [mainPackage]), [pointer.Analyze], [cg.DeleteSyntheticNodes], and
    the iteration orders of the maps. Each call is taken as returning:
    a crash inside one of these packages is not part of the model. *)
Record World : Type := {
  Parse : list string → Parsed;
  FromArgs : list string → bool → Result Conf;
  Load : Conf → string * Result IProg;
  CreateProgram : IProg → Program * Packages;
  Analyze : Config → Result CallGraph;
  DeleteSyntheticNodes : CallGraph → CallGraph;
  functions_order : MapOrder;
  defers_orders : MapOrders
}.

Context (w : World).

Definition loadProgram (args : list string) (tests : bool)
    : Loaded (Program * Packages) :=
  match args with
  | [] => LoadExits (Usage +:+ newline) 1
  | _ :: _ =>
    match FromArgs w args tests with
    | Error err => LoadReturns "" (Error err)
    | Return conf =>
      match Load w conf with
      | (out, Error err) => LoadReturns out (Error err)
      | (out, Return iprog) => LoadReturns out (Return (CreateProgram w iprog))
      end
    end
  end.

Definition doCallgraph (prog : Packages) (tests : bool) : Result CallGraph :=
  match mainPackage prog tests with
  | Error err => Error err
  | Return main =>
    let config := {| Mains := [main]; BuildCallGraph := true |} in
    match Analyze w config with
    | Error err => Error err
    | Return cg => Return (DeleteSyntheticNodes w cg)
    end
  end.

(** The lines printed for the edges of a path. *)
Definition print_edge (pth : callgraph.Edge) : Line :=
  match callgraph.Site pth with
  | Some site => AtSite site
  | None => AtEdge pth
  end.

(** The loop of [main], line by line: what has been printed when it
    ends, and whether it ends. *)
Fixpoint main_loop (h : Heap) (cg : callgraph.Graph) (panics : list ssa.Panic)
    : list Line * Res unit :=
  match panics with
  | [] => ([], Ok ())
  | p :: panics' =>
    match pathToRoot (defers_orders w) h cg p with
    | Ok path =>
      let here :=
        if decide (len path ≠ 0)
        then PanicReachesRoot p :: (print_edge <$> default [] path)
        else [] in
      let '(rest, r) := main_loop h cg panics' in
      (here ++ rest, r)
    | RuntimePanic => ([], RuntimePanic)
    | OutOfFuel => ([], OutOfFuel)
    end
  end.

(** [fmt.Fprintf(os.Stderr, "rect: %s", err)] then [os.Exit(1)], after
    [out] has been written on the standard error. *)
Definition fails (out err : string) : Run :=
  {| stdout := []; stderr := out +:+ "rect: " +:+ err; status := Ok (Exit 1) |}.

(** [main], from the command line on. *)
Definition main (cmdline : list string) : Run :=
  match Parse w cmdline with
  | ParseExits err code =>
    {| stdout := []; stderr := err; status := Ok (Exit code) |}
  | ParseReturns tests args =>
    match loadProgram args tests with
    | LoadExits err code =>
      {| stdout := []; stderr := err; status := Ok (Exit code) |}
    | LoadReturns out (Error err) => fails out err
    | LoadReturns out (Return (prog, pkgs)) =>
      let panics := findPanics (functions_order w) prog in
      match doCallgraph pkgs tests with
      | Error err => fails out err
      | Return (h, cg) =>
        let '(lines, r) := main_loop h cg panics in
        {| stdout := lines; stderr := out;
           status := _ ← r; Ok Returned |}
      end
    end
  end.

End main.

(** ** The example with two deferred calls

    <<
      func g() { defer c(); defer b(); e() }
    >>
    [c] calls recover, [b] does not: the map [defers] of [end] has two
    entries at [g], which the two orders meet in opposite orders. *)
Module example_defers.

Local Open Scope positive_scope.

Definition g_defer_b := example.edge 7 (ssa.DeferSite 703) 3.

Definition fn_g : ssa.Function :=
  {| ssa.func_addr := 70;
     ssa.Blocks :=
       [example.block
          [ssa.Defer 701 {| ssa.Value_ := ssa.FunctionValue 40 |};
           ssa.Defer 703 {| ssa.Value_ := ssa.FunctionValue 30 |};
           example.call 702 80]] |}.

Definition node_g :=
  example.node fn_g [example.main_g]
    [example.g_defer_c; g_defer_b; example.g_e].
Definition node_b := example.node example.fn_b [example.a_b; g_defer_b] [].

Definition heap : Heap := <[7 := node_g]> (<[3 := node_b]> example.heap).

(** The map [defers] that [end] builds at [g]. *)
Definition defers_of_g : gmap positive (list (option positive)) :=
  collect_defers (callgraph.Out node_g).

End example_defers.

(** ** A run on the example program *)
Module example_run.

Definition has_main (f : ssa.Function) (name : string)
    : option ssa.Function :=
  if decide (name = "main") then Some f else None.

(** A library package, the main package of the example program, and a
    package named main that has no function main. *)
Definition pkg_lib : ssa_package.Package :=
  {| ssa_package.pkg_addr := 1001; ssa_package.Object_Name := "lib";
     ssa_package.Func := λ _, None |}.
Definition pkg_main : ssa_package.Package :=
  {| ssa_package.pkg_addr := 1002; ssa_package.Object_Name := "main";
     ssa_package.Func := has_main example.fn_main |}.
Definition pkg_empty_main : ssa_package.Package :=
  {| ssa_package.pkg_addr := 1003; ssa_package.Object_Name := "main";
     ssa_package.Func := λ _, None |}.

Definition packages : Packages :=
  {| AllPackages := [pkg_lib; pkg_main];
     CreateTestMainPackage := λ _, None |}.

(** Only libraries. *)
Definition library_packages : Packages :=
  {| AllPackages := [pkg_lib]; CreateTestMainPackage := λ _, None |}.

(** Flags as [flag.Parse] reads them here: [-tests] is defined, [-x] is
    not. *)
Definition parse (cmdline : list string) : Parsed :=
  match cmdline with
  | [] => ParseReturns false []
  | arg :: args =>
    if decide (arg = "-tests") then ParseReturns true args
    else if decide (arg = "-x")
    then ParseExits "flag provided but not defined: -x" 2
    else ParseReturns false cmdline
  end.

(** A world in which loading and the pointer analysis succeed and give
    the example program and its call graph. *)
Definition world (pkgs : Packages) : World (Conf := unit) (IProg := unit) :=
  {| Parse := parse;
     FromArgs := λ _ _, Return ();
     Load := λ _, ("", Return ());
     CreateProgram := λ _, (example.program, pkgs);
     Analyze := λ _, Return (example.heap, example.graph);
     DeleteSyntheticNodes := λ cg, cg;
     functions_order := listing_order;
     defers_orders := always listing_order |}.



(** A panic placed in [w], the function that [a] starts with a go
    statement. *)
Definition panic_w : ssa.Panic := {| ssa.panic_addr := 502; ssa.Parent := 50 |}.

End example_run.
(** * Properties *)

(** ** The suppression detector *)

Lemma is_recover_call_spec i :
  is_recover_call i = true ↔
  ∃ a c, i = ssa.Call a c ∧ ssa.Value_ c = ssa.Builtin "recover".
Proof.
  split.
  - destruct i as [a c| | | |]; simpl; try discriminate.
    destruct c as [v]; simpl. destruct v as [name| |]; try discriminate.
    intros Hn%bool_decide_eq_true. subst name.
    by exists a, {| ssa.Value_ := ssa.Builtin "recover" |}.
  - intros (a & c & -> & Hc). simpl. rewrite Hc. by apply bool_decide_eq_true.
Qed.

Lemma hasRecover_instrs_spec instrs :
  hasRecover_instrs instrs = true ↔ ∃ i, i ∈ instrs ∧ is_recover_call i = true.
Proof.
  induction instrs as [|i instrs IH]; simpl.
  - split; [discriminate|]. intros (i & Hi & _). by apply elem_of_nil in Hi.
  - destruct (is_recover_call i) eqn:Hi.
    + split; [|done]. intros _. exists i. split; [left|done].
    + rewrite IH. split.
      * intros (j & Hj & Hr). exists j. split; [by right|done].
      * intros (j & Hj & Hr). apply elem_of_cons in Hj as [->|Hj]; [congruence|].
        by exists j.
Qed.

Lemma hasRecover_blocks_spec blocks :
  hasRecover_blocks blocks = true ↔
  ∃ b, b ∈ blocks ∧ hasRecover_instrs (ssa.Instrs b) = true.
Proof.
  induction blocks as [|b blocks IH]; simpl.
  - split; [discriminate|]. intros (b & Hb & _). by apply elem_of_nil in Hb.
  - destruct (hasRecover_instrs (ssa.Instrs b)) eqn:Hb.
    + split; [|done]. intros _. exists b. split; [left|done].
    + rewrite IH. split.
      * intros (b' & Hb' & Hr). exists b'. split; [by right|done].
      * intros (b' & Hb' & Hr). apply elem_of_cons in Hb' as [->|Hb']; [congruence|].
        by exists b'.
Qed.

Lemma hasRecover_spec f :
  hasRecover f = true ↔
  ∃ b a c, b ∈ ssa.Blocks f ∧ ssa.Call a c ∈ ssa.Instrs b ∧
           ssa.Value_ c = ssa.Builtin "recover".
Proof.
  unfold hasRecover. rewrite hasRecover_blocks_spec. split.
  - intros (b & Hb & Hr). apply hasRecover_instrs_spec in Hr as (i & Hi & Hr).
    apply is_recover_call_spec in Hr as (a & c & -> & Hc). by exists b, a, c.
  - intros (b & a & c & Hb & Hi & Hc). exists b. split; [done|].
    apply hasRecover_instrs_spec. exists (ssa.Call a c). split; [done|].
    apply is_recover_call_spec. by exists a, c.
Qed.

(** C6. [hasRecover f] is true exactly when some block of [f] holds, at
    some position, a [Call] instruction whose callee is the builtin
    named "recover".  Nothing else about the function is consulted: a
    call to recover counts whatever blocks stand before and after its
    block and whatever instructions stand before and after it in the
    block (a panic that follows it, a branch around it).  The result is
    a plain [bool]: there is no error outcome. *)
Theorem hasRecover_iff_contains_recover_call (f : ssa.Function) :
  (hasRecover f = true ↔
   ∃ (i j : nat) (b : ssa.BasicBlock) (a : positive) (c : ssa.CallCommon),
     ssa.Blocks f !! i = Some b ∧
     ssa.Instrs b !! j = Some (ssa.Call a c) ∧
     ssa.Value_ c = ssa.Builtin "recover") ∧
  (∀ (blocks_before blocks_after : list ssa.BasicBlock)
     (instrs_before instrs_after : list ssa.Instruction) (a : positive),
     ssa.Blocks f =
       blocks_before ++
       {| ssa.Instrs :=
            instrs_before ++
            ssa.Call a {| ssa.Value_ := ssa.Builtin "recover" |} ::
            instrs_after |} :: blocks_after →
     hasRecover f = true).
Proof.
  split.
  - rewrite hasRecover_spec. split.
    + intros (b & a & c & Hb & Hi & Hc).
      apply list_elem_of_lookup in Hb as [k Hk].
      apply list_elem_of_lookup in Hi as [j Hj].
      by exists k, j, b, a, c.
    + intros (k & j & b & a & c & Hk & Hj & Hc). exists b, a, c.
      split_and!; [| |done]; apply list_elem_of_lookup; eauto.
  - intros bs1 bs2 is1 is2 a Hf. apply hasRecover_spec.
    eexists _, a, _. rewrite Hf. split_and!.
    + apply elem_of_app. right. left.
    + simpl. apply elem_of_app. right. left.
    + done.
Qed.

(** C10. A function whose only uses of the builtin "recover" are
    [Defer] or [Go] instructions (none is a plain [Call]) is not detected
    by [hasRecover]; hence a deferred-call group that contains a node of
    such a function is never found all-recovering by [allrecovers]. *)
Theorem hasRecover_ignores_defer_and_go (f : ssa.Function) :
  (∀ b a c, b ∈ ssa.Blocks f → ssa.Call a c ∈ ssa.Instrs b →
            ssa.Value_ c ≠ ssa.Builtin "recover") →
  hasRecover f = false ∧
  ∀ (h : Heap) (o : list (option positive)) (n : option positive),
    n ∈ o → node_func h n = Some f → allrecovers h o ≠ Ok true.
Proof.
  intros Hno.
  assert (hasRecover f = false) as Hf.
  { apply not_true_is_false. intros Hr.
    apply hasRecover_spec in Hr as (b & a & c & Hb & Hi & Hc).
    by eapply Hno. }
  split; [done|].
  intros h o n Hn Hnf. induction o as [|m o IH]; [by apply elem_of_nil in Hn|].
  simpl. apply elem_of_cons in Hn as [<-|Hn].
  - destruct n as [a|]; [|done]. simpl in *.
    destruct (h !! a) as [nd|]; [|done]. simpl in *.
    rewrite Hnf, Hf. done.
  - destruct (deref h m) as [nd| |]; simpl; [|done..].
    destruct (callgraph.Func nd) as [fn|]; [|done].
    destruct (hasRecover fn); [by apply IH|done].
Qed.

(** ** The raise locator *)

Lemma findPanics_block_spec panics b :
  findPanics_block panics b = panics ++ omap as_panic (ssa.Instrs b).
Proof.
  unfold findPanics_block. generalize (ssa.Instrs b). intros instrs.
  revert panics. induction instrs as [|i instrs IH]; intros panics; simpl.
  - by rewrite app_nil_r.
  - rewrite IH. destruct i; simpl; try done. by rewrite <- app_assoc.
Qed.

Lemma findPanics_func_spec panics f :
  findPanics_func panics f = panics ++ function_panics f.
Proof.
  unfold findPanics_func, function_panics. generalize (ssa.Blocks f).
  intros blocks. revert panics.
  induction blocks as [|b blocks IH]; intros panics; simpl.
  - by rewrite app_nil_r.
  - by rewrite IH, findPanics_block_spec, <- app_assoc.
Qed.

Lemma findPanics_spec ord prog :
  findPanics ord prog = (range ord (AllFunctions prog)).*2 ≫= function_panics.
Proof.
  unfold findPanics. generalize ((range ord (AllFunctions prog)).*2).
  intros fs. rewrite <- (app_nil_l (fs ≫= function_panics)).
  generalize (@nil ssa.Panic). induction fs as [|f fs IH]; intros panics; simpl.
  - by rewrite app_nil_r.
  - by rewrite IH, findPanics_func_spec, <- app_assoc.
Qed.

Lemma elem_of_function_panics p f :
  p ∈ function_panics f ↔
  ∃ b, b ∈ ssa.Blocks f ∧ ssa.PanicInstr p ∈ ssa.Instrs b.
Proof.
  unfold function_panics. rewrite list_elem_of_bind. split.
  - intros (b & Hp & Hb). exists b. split; [done|].
    apply list_elem_of_omap in Hp as (i & Hi & Hp).
    destruct i; simpl in Hp; try discriminate. by simplify_eq.
  - intros (b & Hb & Hp). exists b. split; [|done].
    apply list_elem_of_omap. by exists (ssa.PanicInstr p).
Qed.

(** C8. [findPanics] returns the panic instructions of the functions of
    [ssautil.AllFunctions(prog)] and nothing else: a panic is in the
    result exactly when it is an instruction of a block of one of those
    functions, and the result lists every occurrence once (it is a
    rearrangement, by the iteration order of the map, of the panics of
    the functions taken one after the other), so nothing is filtered
    out or deduplicated.  [findPanics] is a function of the program that
    only reads it: the program is the same value before and after. *)
Theorem findPanics_exactly_the_panics (ord : MapOrder) (prog : Program) :
  (∀ p : ssa.Panic,
     p ∈ findPanics ord prog ↔
     ∃ (a : positive) (f : ssa.Function) (b : ssa.BasicBlock),
       AllFunctions prog !! a = Some f ∧ b ∈ ssa.Blocks f ∧
       ssa.PanicInstr p ∈ ssa.Instrs b) ∧
  findPanics ord prog ≡ₚ (map_to_list (AllFunctions prog)).*2 ≫= function_panics ∧
  length (findPanics ord prog) =
    sum_list (length ∘ function_panics <$> (map_to_list (AllFunctions prog)).*2).
Proof.
  assert (findPanics ord prog ≡ₚ
          (map_to_list (AllFunctions prog)).*2 ≫= function_panics) as Hperm.
  { rewrite findPanics_spec. by rewrite (range_perm ord). }
  split_and!; [|done|].
  - intros p. rewrite Hperm, list_elem_of_bind. split.
    + intros (f & Hp & Hf). apply list_elem_of_fmap in Hf as ([a f'] & -> & Haf).
      apply elem_of_map_to_list in Haf. simpl in *.
      apply elem_of_function_panics in Hp as (b & Hb & Hp). by exists a, f', b.
    + intros (a & f & b & Haf & Hb & Hp). exists f. split.
      * apply elem_of_function_panics. by exists b.
      * apply list_elem_of_fmap. exists (a, f). split; [done|].
        by apply elem_of_map_to_list.
  - rewrite Hperm. generalize ((map_to_list (AllFunctions prog)).*2).
    intros fs. induction fs as [|f fs IH]; csimpl; [done|].
    by rewrite length_app, IH.
Qed.

(** ** The boundary classifier *)

Lemma deref_node_func h n f :
  node_func h n = Some f →
  ∃ nd, deref h n = Ok nd ∧ callgraph.Func nd = Some f.
Proof.
  unfold node_func, deref. destruct n as [a|]; simpl; [|done].
  destruct (h !! a) as [nd|]; simpl; [|done]. by exists nd.
Qed.

Lemma allrecovers_resolved h o :
  Forall (λ n, is_Some (node_func h n)) o →
  allrecovers h o = Ok (bool_decide (Forall (suppresses h) o)).
Proof.
  induction 1 as [|n o [f Hf] Ho IH]; cbn [allrecovers].
  - done.
  - destruct (deref_node_func _ _ _ Hf) as (nd & -> & Hnd).
    cbn [mbind Res_bind]. rewrite Hnd.
    destruct (hasRecover f) eqn:Hrec.
    + rewrite IH. f_equal. apply bool_decide_ext. rewrite Forall_cons.
      split; [|tauto]. intros Hall. split; [by exists f|done].
    + symmetry. f_equal. apply bool_decide_eq_false. rewrite Forall_cons.
      intros [(f' & Hf' & Hrec') _]. congruence.
Qed.

Lemma some_allrecovers_resolved h gs :
  Forall (Forall (λ n, is_Some (node_func h n))) gs →
  some_allrecovers h gs = Ok (bool_decide (Exists (Forall (suppresses h)) gs)).
Proof.
  induction 1 as [|g gs Hg Hgs IH]; cbn [some_allrecovers].
  - done.
  - rewrite (allrecovers_resolved _ _ Hg). cbn [mbind Res_bind].
    destruct (decide (Forall (suppresses h) g)) as [Hall|Hall].
    + rewrite (bool_decide_eq_true_2 (Forall (suppresses h) g)) by done.
      f_equal. symmetry. apply bool_decide_eq_true. by left.
    + rewrite (bool_decide_eq_false_2 (Forall (suppresses h) g)) by done.
      rewrite IH. f_equal. apply bool_decide_ext. rewrite Exists_cons. tauto.
Qed.

Lemma foldl_add_defer_lookup defers out dn :
  foldl add_defer defers out !! dn =
  match defer_group out dn with
  | [] => defers !! dn
  | g => Some (default [] (defers !! dn) ++ g)
  end.
Proof.
  revert defers. induction out as [|o out IH]; intros defers; [done|].
  cbn [foldl]. rewrite IH.
  assert (defer_group (o :: out) dn =
          if decide (is_defer_site o dn)
          then callgraph.Callee o :: defer_group out dn
          else defer_group out dn) as ->.
  { unfold defer_group. rewrite filter_cons. by destruct (decide _). }
  generalize (defer_group out dn). intros g. unfold add_defer.
  destruct (decide (is_defer_site o dn)) as [Hdn|Hdn].
  - rewrite Hdn, lookup_insert_eq. destruct g; simpl; [done|].
    by rewrite <- app_assoc.
  - destruct (callgraph.Site o) as [[a|dn'|a]|] eqn:Hsite; try done.
    rewrite lookup_insert_ne; [done|]. intros ->. by apply Hdn.
Qed.

Lemma collect_defers_lookup out dn g :
  collect_defers out !! dn = Some g ↔ g = defer_group out dn ∧ g ≠ [].
Proof.
  unfold collect_defers. rewrite foldl_add_defer_lookup, lookup_empty. simpl.
  destruct (defer_group out dn) as [|c g']; split.
  - done.
  - by intros [-> ?].
  - intros [= <-]. done.
  - by intros [-> _].
Qed.

Lemma elem_of_range_values ord {V} (m : gmap positive V) (v : V) :
  v ∈ (range ord m).*2 ↔ ∃ k, m !! k = Some v.
Proof.
  rewrite (range_perm ord), list_elem_of_fmap. split.
  - intros ([k v'] & -> & Hkv). exists k. by apply elem_of_map_to_list.
  - intros [k Hk]. exists (k, v). split; [done|]. by apply elem_of_map_to_list.
Qed.

Lemma elem_of_defer_group out dn c :
  c ∈ defer_group out dn ↔
  ∃ o, o ∈ out ∧ is_defer_site o dn ∧ callgraph.Callee o = c.
Proof.
  unfold defer_group. rewrite list_elem_of_fmap. split.
  - intros (o & -> & Ho). apply list_elem_of_filter in Ho as [Hs Ho]. by exists o.
  - intros (o & Ho & Hs & <-). exists o. split; [done|].
    by apply list_elem_of_filter.
Qed.

Lemma dead_end_groups ord h nd :
  Exists (Forall (suppresses h)) (range ord (collect_defers (callgraph.Out nd))).*2 ↔
  dead_end h nd.
Proof.
  rewrite Exists_exists. unfold dead_end. split.
  - intros (g & Hg & Hall). apply elem_of_range_values in Hg as [dn Hdn].
    apply collect_defers_lookup in Hdn as [-> Hne]. by exists dn.
  - intros (dn & Hne & Hall). exists (defer_group (callgraph.Out nd) dn).
    split; [|done]. apply elem_of_range_values. exists dn.
    by apply collect_defers_lookup.
Qed.

Lemma defer_groups_resolve ord h nd :
  defers_resolve h nd →
  Forall (Forall (λ n, is_Some (node_func h n)))
         (range ord (collect_defers (callgraph.Out nd))).*2.
Proof.
  intros Hres. apply Forall_forall. intros g Hg.
  apply elem_of_range_values in Hg as [dn Hdn].
  apply collect_defers_lookup in Hdn as [-> _].
  apply Forall_forall. intros c Hc.
  apply elem_of_defer_group in Hc as (o & Ho & Hs & <-).
  unfold defers_resolve in Hres. rewrite Forall_forall in Hres.
  specialize (Hres o Ho). unfold defer_resolves in Hres. by rewrite Hs in Hres.
Qed.

(** What [end] returns for a node of the store whose deferred callees
    resolve, whatever the iteration order of [defers]. *)
Lemma end_resolved ord h root a nd :
  h !! a = Some nd → defers_resolve h nd →
  end_ ord h root (Some a) =
  Ok (if decide (dead_end h nd) then (false, true)
      else if decide (Some a = root) then (true, false)
      else (some_go_site (callgraph.In nd), false)).
Proof.
  intros Ha Hres. unfold end_, deref. rewrite Ha. simpl.
  rewrite (some_allrecovers_resolved _ _ (defer_groups_resolve ord _ _ Hres)).
  simpl. case_bool_decide as Hdead; rewrite dead_end_groups in Hdead.
  - by rewrite decide_True.
  - rewrite (decide_False (P := dead_end h nd)) by done.
    destruct (decide (Some a = root)); [done|].
    by destruct (some_go_site (callgraph.In nd)).
Qed.

(** C1. A node of the store with a deferred-call group (the callees of
    the outgoing edges of one [Defer] instruction) that is non-empty and
    whose callees all satisfy [hasRecover] is classified
    [(isend, isdeadend) = (false, true)], for every iteration order of
    the map [defers] and every root: the loop over [defers] runs before
    the comparison with the root and before the scan for [go] edges, so
    the answer is the same when the node is the root itself or has an
    incoming [go] edge.  (The deferred callees of the node are nodes
    that carry a function, as in every graph [callgraph] builds.) *)
Theorem end_dead_end_before_root_and_go
    (ord : MapOrder) (h : Heap) (a : positive) (nd : callgraph.Node) :
  h !! a = Some nd →
  defers_resolve h nd →
  dead_end h nd →
  (∀ root, end_ ord h root (Some a) = Ok (false, true)) ∧
  end_ ord h (Some a) (Some a) = Ok (false, true) ∧
  (some_go_site (callgraph.In nd) = true →
   ∀ root, end_ ord h root (Some a) = Ok (false, true)).
Proof.
  intros Ha Hres Hdead.
  assert (∀ root, end_ ord h root (Some a) = Ok (false, true)) as Hend.
  { intros root. rewrite (end_resolved _ _ _ _ _ Ha Hres). by rewrite decide_True. }
  split_and!; [done|apply Hend|intros _; apply Hend].
Qed.

(** ** The backward search *)

Lemma bind_Ok {A B} (r : Res A) (k : A → Res B) (b : B) :
  r ≫= k = Ok b → ∃ a, r = Ok a ∧ k a = Ok b.
Proof. destruct r as [a| |]; simpl; [|done..]. intros Hk. by exists a. Qed.

Lemma pop_push st s e :
  stack st = s ++ [e] → pop st = Ok {| stack := s; seen := seen st |}.
Proof.
  unfold pop. intros Hst. rewrite Hst.
  destruct (s ++ [e]) as [|e' s'] eqn:Hs; [by destruct s|].
  rewrite <- Hs. f_equal. f_equal.
  rewrite length_app. simpl. rewrite Nat.add_sub. by rewrite take_app_length.
Qed.

(** What [end] tells of a node it sends the search through. *)
Lemma end_continue ord h root n :
  end_ ord h root n = Ok (false, false) →
  ∃ a nd, n = Some a ∧ h !! a = Some nd ∧ n ≠ root ∧
          some_go_site (callgraph.In nd) = false.
Proof.
  unfold end_, deref. destruct n as [a|]; [|done].
  destruct (h !! a) as [nd|] eqn:Ha; [|done]. simpl. intros Hend.
  apply bind_Ok in Hend as (dead & _ & Hend). exists a, nd.
  destruct dead; [done|]. destruct (decide (Some a = root)); [done|].
  by destruct (some_go_site (callgraph.In nd)).
Qed.

Lemma end_not_OutOfFuel ord h root n : end_ ord h root n ≠ OutOfFuel.
Proof.
  assert (∀ o, allrecovers h o ≠ OutOfFuel) as Hall.
  { induction o as [|f o IH]; simpl; [done|].
    unfold deref. destruct f as [a|]; [|done].
    destruct (h !! a) as [nd|]; [|done]. simpl.
    destruct (callgraph.Func nd) as [fn|]; [|done]. by destruct (hasRecover fn). }
  assert (∀ gs, some_allrecovers h gs ≠ OutOfFuel) as Hsome.
  { induction gs as [|g gs IH]; simpl; [done|].
    specialize (Hall g). destruct (allrecovers h g) as [[|]| |]; done. }
  unfold end_, deref. destruct n as [a|]; [|done].
  destruct (h !! a) as [nd|]; [|done]. simpl.
  match goal with |- context [some_allrecovers h ?gs] =>
    specialize (Hsome gs); destruct (some_allrecovers h gs) as [[|]| |] end;
    simpl; try done.
  destruct (decide (Some a = root)); [done|].
  by destruct (some_go_site (callgraph.In nd)).
Qed.

Section search_correct.

Context (ords : MapOrders) (h : Heap) (cg : callgraph.Graph).

Local Abbreviation root := (callgraph.Root cg).
Local Abbreviation post := (search_post ords h root).

Lemma search_callers_post rec a nd ins st r :
  (∀ n st r, rec n st = Ok r → post n st r) →
  h !! a = Some nd →
  end_ (ords (Some a)) h root (Some a) = Ok (false, false) →
  ins ⊆ callgraph.In nd →
  Some a ∈ seen st →
  search_callers rec ins st = Ok r →
  post (Some a) st r.
Proof.
  intros Hrec Ha Hend. revert st.
  induction ins as [|e ins IH]; intros st Hins Hseen Hr; simpl in Hr.
  - simplify_eq. by split_and!.
  - apply bind_Ok in Hr as ([found st1] & Hcall & Hr).
    apply Hrec in Hcall as (Hsub & _ & Hfound). simpl in *.
    assert (e ∈ callgraph.In nd) as He by (apply Hins; left).
    destruct found as [path|].
    + simplify_eq. destruct Hfound as (-> & ext & Hext & Hwalk).
      split_and!; simpl; [done|by apply Hsub|].
      split; [done|]. exists (e :: ext). split.
      * by rewrite Hext, <- app_assoc.
      * by eapply walk_step.
    + rewrite (pop_push _ _ _ Hfound) in Hr. simpl in Hr.
      apply IH in Hr as (Hsub' & Hin' & Hr); simpl in *.
      * split_and!; [set_solver|done|].
        destruct r.1; [|done]. destruct Hr as (-> & ext & Hext & Hwalk).
        split; [done|]. by exists ext.
      * intros e' He'. apply Hins. by right.
      * by apply Hsub.
Qed.

Lemma search_post_holds fuel n st r :
  search ords h cg fuel n st = Ok r → post n st r.
Proof.
  revert n st r. induction fuel as [|fuel IH]; intros n st r Hr; [done|].
  simpl in Hr. destruct (decide (n ∈ seen st)) as [Hseen|Hseen].
  { simplify_eq. by split_and!. }
  apply bind_Ok in Hr as ([isend deadend] & Hend & Hr).
  destruct deadend.
  { simplify_eq. split_and!; simpl; [set_solver|set_solver|done]. }
  destruct isend.
  { simplify_eq. split_and!; simpl; [set_solver|set_solver|].
    split; [done|]. exists []. split; [by rewrite app_nil_r|by constructor]. }
  apply bind_Ok in Hr as (nd & Hnd & Hr).
  destruct (end_continue _ _ _ _ Hend) as (a & nd' & -> & Ha & _ & _).
  unfold deref in Hnd. rewrite Ha in Hnd. simplify_eq.
  eapply search_callers_post in Hr as (Hsub & Hin & Hr);
    [|exact IH|done|done|done|set_solver].
  simpl in *. split_and!; [set_solver|done|done].
Qed.

End search_correct.

(** ** Termination of the search *)

Lemma size_universe (h : Heap) : size (universe h) = S (size h).
Proof.
  unfold universe. rewrite size_union by set_solver. rewrite size_singleton.
  f_equal. unfold set_map. rewrite size_list_to_set.
  - rewrite length_fmap. rewrite <- (size_dom (D := gset positive) h). done.
  - apply (NoDup_fmap_2 Some). apply NoDup_elements.
Qed.

Lemma unseen_decreases (h : Heap) (n : option positive) (s : gset (option positive)) :
  n ∈ universe h → n ∉ s →
  size (universe h ∖ ({[n]} ∪ s)) < size (universe h ∖ s).
Proof. intros Hn Hs. apply subset_size. set_solver. Qed.

Section search_terminates.

Context (ords : MapOrders) (h : Heap) (cg : callgraph.Graph).

Local Abbreviation root := (callgraph.Root cg).

Lemma search_callers_terminates rec ins st fuel :
  (∀ n st, size (universe h ∖ seen st) < fuel → rec n st ≠ OutOfFuel) →
  (∀ n st r, rec n st = Ok r → search_post ords h root n st r) →
  size (universe h ∖ seen st) < fuel →
  search_callers rec ins st ≠ OutOfFuel.
Proof.
  intros Hrec Hpost. revert st.
  induction ins as [|e ins IH]; intros st Hst; simpl; [done|].
  destruct (rec (callgraph.Caller e) (push e st)) as [[found st1]| |] eqn:Hcall;
    simpl; [|done|by apply Hrec in Hcall].
  apply Hpost in Hcall as (Hsub & _ & Hfound). simpl in *.
  destruct found as [path|]; [done|].
  rewrite (pop_push _ _ _ Hfound). simpl. apply IH. simpl.
  eapply Nat.le_lt_trans; [|exact Hst]. apply subseteq_size. set_solver.
Qed.

Lemma search_terminates fuel n st :
  size (universe h ∖ seen st) < fuel →
  search ords h cg fuel n st ≠ OutOfFuel.
Proof.
  revert n st. induction fuel as [|fuel IH]; intros n st Hst; [lia|].
  simpl. destruct (decide (n ∈ seen st)) as [Hseen|Hseen]; [done|].
  pose proof (end_not_OutOfFuel (ords n) h root n) as Hoof.
  destruct (end_ (ords n) h root n) as [[isend deadend]| |] eqn:Hend; simpl; [|done..].
  destruct deadend; [done|]. destruct isend; [done|].
  destruct (end_continue _ _ _ _ Hend) as (a & nd & -> & Ha & _ & _).
  unfold deref. rewrite Ha. simpl.
  apply search_callers_terminates with (fuel := fuel); [exact IH| |].
  - intros n' st' r. apply search_post_holds.
  - simpl. assert (Some a ∈ universe h) as Hin.
    { unfold universe. apply elem_of_union_r, elem_of_map.
      exists a. split; [done|]. apply elem_of_dom. by exists nd. }
    pose proof (unseen_decreases h _ _ Hin Hseen). lia.
Qed.

Lemma search_callers_ext rec1 rec2 ins st :
  (∀ n st, rec1 n st ≠ OutOfFuel → rec2 n st = rec1 n st) →
  search_callers rec1 ins st ≠ OutOfFuel →
  search_callers rec2 ins st = search_callers rec1 ins st.
Proof.
  intros Hrec. revert st. induction ins as [|e ins IH]; intros st; simpl; [done|].
  intros Hoof. rewrite Hrec.
  - destruct (rec1 (callgraph.Caller e) (push e st)) as [[found st1]| |];
      simpl in *; [|done..].
    destruct found; [done|]. destruct (pop st1) as [st2| |]; simpl in *; [|done..].
    by apply IH.
  - intros Hcall. by rewrite Hcall in Hoof.
Qed.

Lemma search_more_fuel fuel n st k :
  search ords h cg fuel n st ≠ OutOfFuel →
  search ords h cg (fuel + k) n st = search ords h cg fuel n st.
Proof.
  revert n st. induction fuel as [|fuel IH]; intros n st; [done|].
  simpl. destruct (decide (n ∈ seen st)); [done|].
  destruct (end_ (ords n) h root n) as [[isend deadend]| |]; simpl; [|done..].
  destruct deadend; [done|]. destruct isend; [done|].
  destruct (deref h n) as [nd| |]; simpl; [|done..].
  apply search_callers_ext. apply IH.
Qed.

Lemma enough_fuel_suffices st :
  size (universe h ∖ seen st) < enough_fuel h.
Proof.
  unfold enough_fuel. eapply Nat.le_lt_trans.
  - apply subseteq_size, subseteq_difference_l. reflexivity.
  - rewrite size_universe. lia.
Qed.

End search_terminates.

(** ** Witness paths *)

Lemma some_go_site_false ins :
  some_go_site ins = false ↔ ∀ e, e ∈ ins → is_go_site e = false.
Proof.
  induction ins as [|e ins IH]; simpl.
  - split; [|done]. intros _ e He. by apply elem_of_nil in He.
  - destruct (is_go_site e) eqn:He.
    + split; [done|]. intros Hall. rewrite <- He. apply Hall. left.
    + rewrite IH. split.
      * intros Hall e' [->|He']%elem_of_cons; [done|by apply Hall].
      * intros Hall e' He'. apply Hall. by right.
Qed.

Lemma some_go_site_true ins :
  some_go_site ins = true ↔ ∃ e, e ∈ ins ∧ is_go_site e = true.
Proof.
  split.
  - intros Hgo. destruct (decide (Exists (λ e, is_go_site e = true) ins)) as [Hex|Hex].
    + by apply Exists_exists in Hex.
    + assert (some_go_site ins = false); [|congruence].
      apply some_go_site_false. intros e He. apply not_true_is_false.
      intros Hgo'. apply Hex, Exists_exists. by exists e.
  - intros (e & He & Hgo). apply not_false_is_true. intros Hno.
    rewrite some_go_site_false in Hno. rewrite (Hno e He) in Hgo. done.
Qed.

Lemma walk_edges ords h root n path e :
  walk ords h root n path → e ∈ path →
  ∃ a nd, h !! a = Some nd ∧ e ∈ callgraph.In nd ∧
          end_ (ords (Some a)) h root (Some a) = Ok (false, false).
Proof.
  induction 1 as [n Hend|a nd e' path Ha Hend He' Hwalk IH].
  - intros He. by apply elem_of_nil in He.
  - intros [->|He]%elem_of_cons; [by exists a, nd|by apply IH].
Qed.

Lemma walk_chain ords h root n path :
  in_edges_consistent h → walk ords h root n path → chain n path.
Proof.
  intros Hcons. induction 1 as [n Hend|a nd e path Ha Hend He Hwalk IH]; [done|].
  simpl. split; [|done]. specialize (Hcons a nd Ha). simpl in Hcons.
  rewrite Forall_forall in Hcons. by apply Hcons.
Qed.

Lemma chain_lookup n path :
  chain n path →
  (∀ e, path !! 0 = Some e → callgraph.Callee e = n) ∧
  (∀ i e1 e2, path !! i = Some e1 → path !! S i = Some e2 →
              callgraph.Callee e2 = callgraph.Caller e1).
Proof.
  revert n. induction path as [|e path IH]; intros n; simpl.
  - intros _. split; [by intros e|by intros i e1 e2].
  - intros [Hcallee Hchain]. destruct (IH _ Hchain) as [Hhead Htail]. split.
    + by intros e' [= <-].
    + intros [|i] e1 e2; simpl.
      * intros [= <-]. apply Hhead.
      * apply Htail.
Qed.

Lemma pathToRoot_Some ords h cg p path :
  pathToRoot ords h cg p = Ok (Some path) →
  walk ords h (callgraph.Root cg) (callgraph.Nodes cg !! ssa.Parent p) path.
Proof.
  unfold pathToRoot, pathToRoot_fuel. intros Hp.
  apply bind_Ok in Hp as ([found st] & Hs & Hp). simplify_eq.
  apply search_post_holds in Hs as (_ & _ & _ & ext & -> & Hwalk). done.
Qed.

(** A search started at a node at which [end] answers [(true, false)]
    returns the stack as it stands. *)
Lemma search_at_end ords h cg fuel n st :
  n ∉ seen st →
  end_ (ords n) h (callgraph.Root cg) n = Ok (true, false) →
  search ords h cg (S fuel) n st = Ok (Some (stack st), mark n st).
Proof. intros Hseen Hend. simpl. rewrite decide_False by done. by rewrite Hend. Qed.

Lemma pathToRoot_at_end ords h cg p :
  (∀ ord : MapOrder,
     end_ ord h (callgraph.Root cg) (callgraph.Nodes cg !! ssa.Parent p)
       = Ok (true, false)) →
  pathToRoot ords h cg p = Ok (Some []).
Proof.
  intros Hend. unfold pathToRoot, pathToRoot_fuel, enough_fuel.
  replace (size h + 2) with (S (size h + 1)) by lia.
  rewrite search_at_end; [done|set_solver|done].
Qed.

(** C4. When the enclosing function of the panic is the function of the
    root node and no deferred-call group of the root is made only of
    functions that call recover, [pathToRoot] returns a witness (a
    non-nil slice, not the nil of "no path") and its length is 0 or 1:
    it is the stack as created, of length 0. *)
Theorem panic_in_root_function
    (ords : MapOrders) (h : Heap) (cg : callgraph.Graph) (p : ssa.Panic)
    (r : positive) (nd : callgraph.Node) :
  callgraph.Root cg = Some r →
  callgraph.Nodes cg !! ssa.Parent p = Some r →
  h !! r = Some nd →
  defers_resolve h nd →
  ¬ dead_end h nd →
  ∃ path, pathToRoot ords h cg p = Ok (Some path) ∧
          (length path = 0 ∨ length path = 1) ∧ path = [].
Proof.
  intros Hroot Hnode Hr Hres Hlive. exists []. split_and!; [|by left|done].
  apply pathToRoot_at_end. intros ord. rewrite Hnode, Hroot.
  rewrite (end_resolved _ _ _ _ _ Hr Hres).
  rewrite decide_False by done. by rewrite decide_True.
Qed.

(** C9. A witness path returned by [pathToRoot] is a backward chain of
    call edges: the callee of its first edge is the node of the
    function that encloses the panic, and the callee of every later
    edge is the caller of the edge before it.  (In a graph built by
    [callgraph] the incoming edges of a node have that node as their
    callee.) *)
Theorem witness_is_a_backward_chain
    (ords : MapOrders) (h : Heap) (cg : callgraph.Graph) (p : ssa.Panic)
    (path : list callgraph.Edge) :
  in_edges_consistent h →
  pathToRoot ords h cg p = Ok (Some path) →
  (∀ e, path !! 0 = Some e →
        callgraph.Callee e = callgraph.Nodes cg !! ssa.Parent p) ∧
  (∀ i e1 e2, path !! i = Some e1 → path !! S i = Some e2 →
              callgraph.Callee e2 = callgraph.Caller e1).
Proof.
  intros Hcons Hpath. apply chain_lookup.
  eapply walk_chain; [done|]. by apply pathToRoot_Some.
Qed.

(** ** What [main] prints *)

Lemma reported_elem ords h cg panics rs p path :
  reported ords h cg panics = Ok rs → (p, path) ∈ rs →
  p ∈ panics ∧ pathToRoot ords h cg p = Ok (Some path) ∧ path ≠ [].
Proof.
  revert rs. induction panics as [|p' panics IH]; intros rs Hrs Hin; simpl in Hrs.
  - simplify_eq. by apply elem_of_nil in Hin.
  - apply bind_Ok in Hrs as (found & Hfound & Hrs).
    apply bind_Ok in Hrs as (rest & Hrest & Hrs).
    assert ((p, path) ∈ rest → p ∈ p' :: panics ∧
            pathToRoot ords h cg p = Ok (Some path) ∧ path ≠ []) as Hold.
    { intros Hin'. destruct (IH _ Hrest Hin') as (? & ? & ?).
      split_and!; [by right|done..]. }
    destruct (decide (len found ≠ 0)) as [Hlen|Hlen]; simplify_eq; [|by apply Hold].
    apply elem_of_cons in Hin as [Heq|Hin]; [|by apply Hold].
    simplify_eq. destruct found as [path|]; simpl in *; [|done].
    split_and!; [left|done|]. intros ->. done.
Qed.

(** C5, the claim as stated fails on the program above: the function
    [u] has no node in the graph, the search for its panic returns a
    non-nil stack of length 0, and [main], which prints a panic only
    when [len(path) != 0], prints nothing for it. *)
Lemma absent_node_not_reported :
  callgraph.Nodes example.graph !! ssa.Parent example.panic_u = None ∧
  pathToRoot (always listing_order) example.heap example.graph example.panic_u
    = Ok (Some []) ∧
  reported (always listing_order) example.heap example.graph [example.panic_u] = Ok [].
Proof. by vm_compute. Qed.

(** C5, as amended.  When the enclosing function of a panic has no node
    in the graph, [end] is asked about the nil node and answers
    [(isend, isdeadend) = (true, false)], neither an error nor a dead
    end; the search returns a witness, the non-nil stack of length 0;
    [main] prints only the panics whose path has a non-zero length, so
    this panic is not among those printed. *)
Theorem absent_node_is_an_end
    (ords : MapOrders) (h : Heap) (cg : callgraph.Graph) (p : ssa.Panic) :
  callgraph.Nodes cg !! ssa.Parent p = None →
  (∀ ord : MapOrder,
     end_ ord h (callgraph.Root cg) (callgraph.Nodes cg !! ssa.Parent p)
       = Ok (true, false)) ∧
  pathToRoot ords h cg p = Ok (Some []) ∧
  reported ords h cg [p] = Ok [] ∧
  (∀ panics rs, reported ords h cg panics = Ok rs → p ∉ rs.*1).
Proof.
  intros Hnil.
  assert (∀ ord : MapOrder,
            end_ ord h (callgraph.Root cg) (callgraph.Nodes cg !! ssa.Parent p)
              = Ok (true, false)) as Hend by (intros ord; by rewrite Hnil).
  pose proof (pathToRoot_at_end ords _ _ _ Hend) as Hpath.
  split_and!; [done|done| |].
  - simpl. by rewrite Hpath.
  - intros panics rs Hrs Hin. apply list_elem_of_fmap in Hin as ([p' path] & -> & Hin).
    destruct (reported_elem _ _ _ _ _ _ _ Hrs Hin) as (_ & Hpath' & Hne).
    simpl in *. rewrite Hpath in Hpath'. by simplify_eq.
Qed.

(** ** Determinism *)

Lemma end_order_irrelevant (ord1 ord2 : MapOrder) h root n :
  well_formed h → end_ ord1 h root n = end_ ord2 h root n.
Proof.
  intros Hwf. destruct n as [a|]; [|done].
  destruct (h !! a) as [nd|] eqn:Ha.
  - pose proof (Hwf a nd Ha) as Hres. simpl in Hres.
    by rewrite !(end_resolved _ _ _ _ _ Ha Hres).
  - unfold end_, deref. by rewrite Ha.
Qed.

Lemma search_callers_ext_eq rec1 rec2 ins st :
  (∀ n st, rec1 n st = rec2 n st) →
  search_callers rec1 ins st = search_callers rec2 ins st.
Proof.
  intros Hrec. revert st. induction ins as [|e ins IH]; intros st; simpl; [done|].
  rewrite Hrec. destruct (rec2 (callgraph.Caller e) (push e st)) as [[found st1]| |];
    simpl; [|done..].
  destruct found; [done|]. destruct (pop st1) as [st2| |]; simpl; [|done..].
  apply IH.
Qed.

Lemma search_order_irrelevant ords1 ords2 h cg fuel n st :
  well_formed h →
  search ords1 h cg fuel n st = search ords2 h cg fuel n st.
Proof.
  intros Hwf. revert n st. induction fuel as [|fuel IH]; intros n st; [done|].
  simpl. destruct (decide (n ∈ seen st)); [done|].
  rewrite (end_order_irrelevant (ords1 n) (ords2 n)) by done.
  destruct (end_ (ords2 n) h (callgraph.Root cg) n) as [[isend deadend]| |];
    simpl; [|done..].
  destruct deadend; [done|]. destruct isend; [done|].
  destruct (deref h n) as [nd| |]; simpl; [|done..].
  by apply search_callers_ext_eq.
Qed.

(** C7. On a graph as [callgraph] builds them, two runs of the search
    for the same panic return the same thing (the same witness, or nil
    both times), whatever order each run meets the entries of the map
    [defers] in: the iteration order of that map is the only part of a
    run that the graph and the panic do not fix, and the answer of
    [end] does not depend on it. *)
Theorem search_is_deterministic
    (ords1 ords2 : MapOrders) (h : Heap) (cg : callgraph.Graph) (p : ssa.Panic) :
  well_formed h →
  pathToRoot ords1 h cg p = pathToRoot ords2 h cg p ∧
  (∀ (ord1 ord2 : MapOrder) root n, end_ ord1 h root n = end_ ord2 h root n).
Proof.
  intros Hwf. split.
  - unfold pathToRoot, pathToRoot_fuel.
    by rewrite (search_order_irrelevant ords1 ords2).
  - intros ord1 ord2 root n. by apply end_order_irrelevant.
Qed.

(** ** The work of a search *)

Lemma sum_list_fmap_le {A} (f g : A → nat) (l : list A) :
  (∀ x, x ∈ l → f x ≤ g x) → sum_list (f <$> l) ≤ sum_list (g <$> l).
Proof.
  induction l as [|x l IH]; intros Hle; csimpl; [done|].
  assert (f x ≤ g x) by (apply Hle; left).
  assert (sum_list (f <$> l) ≤ sum_list (g <$> l)); [|lia].
  apply IH. intros y Hy. apply Hle. by right.
Qed.

Lemma sum_list_fmap_gap {A} (f g : A → nat) (l : list A) (x : A) (c : nat) :
  x ∈ l → f x + c ≤ g x → (∀ y, y ∈ l → f y ≤ g y) →
  sum_list (f <$> l) + c ≤ sum_list (g <$> l).
Proof.
  intros Hx Hgap. induction l as [|y l IH]; intros Hle; csimpl.
  - by apply elem_of_nil in Hx.
  - apply elem_of_cons in Hx as [<-|Hx].
    + assert (sum_list (f <$> l) ≤ sum_list (g <$> l)); [|lia].
      apply sum_list_fmap_le. intros z Hz. apply Hle. by right.
    + assert (f y ≤ g y) by (apply Hle; left).
      assert (sum_list (f <$> l) + c ≤ sum_list (g <$> l)); [|lia].
      apply IH; [done|]. intros z Hz. apply Hle. by right.
Qed.

Lemma unseen_in_edges_mono (h : Heap) (s s' : gset (option positive)) :
  s ⊆ s' → unseen_in_edges h s' ≤ unseen_in_edges h s.
Proof.
  intros Hsub. apply sum_list_fmap_le. intros [a nd] _. simpl.
  destruct (decide (Some a ∈ s')); [lia|].
  rewrite decide_False; [lia|]. set_solver.
Qed.

Lemma unseen_in_edges_mark (h : Heap) (a : positive) (nd : callgraph.Node)
    (s : gset (option positive)) :
  h !! a = Some nd → Some a ∉ s →
  unseen_in_edges h ({[Some a]} ∪ s) + length (callgraph.In nd)
    ≤ unseen_in_edges h s.
Proof.
  intros Ha Hs. apply sum_list_fmap_gap with (x := (a, nd)).
  - by apply elem_of_map_to_list.
  - simpl. rewrite decide_True by set_solver. by rewrite decide_False.
  - intros [a' nd'] _. simpl. destruct (decide (Some a' ∈ {[Some a]} ∪ s)); [lia|].
    rewrite decide_False; [lia|]. set_solver.
Qed.

Lemma pop_seen st st' : pop st = Ok st' → seen st' = seen st.
Proof. unfold pop. destruct (stack st); [done|]. by intros [= <-]. Qed.

Lemma end_Ok_universe (ord : MapOrder) h root n r :
  end_ ord h root n = Ok r → n ∈ universe h.
Proof.
  unfold universe, end_, deref. destruct n as [a|]; [|set_solver].
  destruct (h !! a) as [nd|] eqn:Ha; [|done]. intros _.
  apply elem_of_union_r, elem_of_map. exists a. split; [done|].
  apply elem_of_dom. by exists nd.
Qed.

Lemma work_post_stop (h : Heap) n st found :
  n ∉ seen st → n ∈ universe h →
  work_post h 1 st (found, mark n st, expansion n no_work).
Proof.
  intros Hseen Huniv. unfold work_post. simpl. split_and!.
  - set_solver.
  - apply NoDup_singleton.
  - intros m ->%list_elem_of_singleton. split_and!; [done|set_solver|done].
  - assert (unseen_in_edges h ({[n]} ∪ seen st) ≤ unseen_in_edges h (seen st))
      by (apply unseen_in_edges_mono; set_solver).
    lia.
Qed.

Section search_work_correct.

Context (ords : MapOrders) (h : Heap) (cg : callgraph.Graph).

Lemma search_callers_work_erase rec_work rec ins st :
  (∀ n st, erase (rec_work n st) = rec n st) →
  erase (search_callers_work rec_work ins st) = search_callers rec ins st.
Proof.
  intros Hrec. revert st. induction ins as [|e ins IH]; intros st; simpl; [done|].
  rewrite <- Hrec.
  destruct (rec_work (callgraph.Caller e) (push e st)) as [[[found st1] w1]| |];
    simpl; [|done..].
  destruct found; [done|]. destruct (pop st1) as [st2| |]; simpl; [|done..].
  rewrite <- IH.
  by destruct (search_callers_work rec_work ins st2) as [[[found st3] w2]| |].
Qed.

Lemma search_work_erase fuel n st :
  erase (search_work ords h cg fuel n st) = search ords h cg fuel n st.
Proof.
  revert n st. induction fuel as [|fuel IH]; intros n st; [done|].
  simpl. destruct (decide (n ∈ seen st)); [done|].
  destruct (end_ (ords n) h (callgraph.Root cg) n) as [[isend deadend]| |];
    simpl; [|done..].
  destruct deadend; [done|]. destruct isend; [done|].
  destruct (deref h n) as [nd| |]; simpl; [|done..].
  rewrite <- (search_callers_work_erase (search_work ords h cg fuel)) by done.
  by destruct (search_callers_work _ _ _) as [[[found st3] w2]| |].
Qed.

Lemma search_callers_work_post rec ins st r :
  (∀ n st r, rec n st = Ok r → work_post h 1 st r) →
  search_callers_work rec ins st = Ok r →
  work_post h (length ins) st r.
Proof.
  intros Hrec. revert st r.
  induction ins as [|e ins IH]; intros st r Hr; simpl in Hr.
  - simplify_eq. split_and!; simpl; [done|constructor| |lia].
    intros m Hm. by apply elem_of_nil in Hm.
  - apply bind_Ok in Hr as ([[found st1] w1] & Hcall & Hr).
    apply Hrec in Hcall as (Hsub & Hnd & Hexp & Hcalls). simpl in *.
    destruct found as [path|].
    + simplify_eq. split_and!; simpl; [done|done|done|lia].
    + apply bind_Ok in Hr as (st2 & Hpop & Hr). apply pop_seen in Hpop.
      apply bind_Ok in Hr as ([[found st3] w2] & Hloop & Hr).
      apply IH in Hloop as (Hsub' & Hnd' & Hexp' & Hcalls'). simpl in *.
      rewrite Hpop in *. simplify_eq. split_and!; simpl.
      * set_solver.
      * apply NoDup_app. split_and!; [done| |done].
        intros m Hm1 Hm2. apply Hexp in Hm1. apply Hexp' in Hm2. tauto.
      * intros m [Hm|Hm]%elem_of_app.
        -- apply Hexp in Hm as (? & ? & ?). split_and!; [done|set_solver|done].
        -- apply Hexp' in Hm as (? & ? & ?). split_and!; [set_solver|done|done].
      * lia.
Qed.

Lemma search_work_post fuel n st r :
  search_work ords h cg fuel n st = Ok r → work_post h 1 st r.
Proof.
  revert n st r. induction fuel as [|fuel IH]; intros n st r Hr; [done|].
  simpl in Hr. destruct (decide (n ∈ seen st)) as [Hseen|Hseen].
  { simplify_eq. split_and!; simpl; [done|constructor| |lia].
    intros m Hm. by apply elem_of_nil in Hm. }
  apply bind_Ok in Hr as ([isend deadend] & Hend & Hr).
  pose proof (end_Ok_universe _ _ _ _ _ Hend) as Huniv.
  destruct deadend; [simplify_eq; by apply work_post_stop|].
  destruct isend; [simplify_eq; by apply work_post_stop|].
  apply bind_Ok in Hr as (nd & Hnd & Hr).
  destruct (end_continue _ _ _ _ Hend) as (a & nd' & -> & Ha & _ & _).
  unfold deref in Hnd. rewrite Ha in Hnd. simplify_eq.
  apply bind_Ok in Hr as ([[found st3] w] & Hloop & Hr). simplify_eq.
  apply search_callers_work_post in Hloop as (Hsub & Hnd & Hexp & Hcalls);
    [|exact IH].
  pose proof (unseen_in_edges_mark h a nd (seen st) Ha Hseen) as Hmark.
  simpl in *. split_and!; simpl.
  - set_solver.
  - apply NoDup_cons. split; [|done]. intros Hm. apply Hexp in Hm. set_solver.
  - intros m [->|Hm]%elem_of_cons.
    + split_and!; [done|set_solver|done].
    + apply Hexp in Hm as (? & ? & ?). split_and!; [set_solver|done|done].
  - lia.
Qed.

End search_work_correct.

(** ** The search returns *)

Section search_returns.

Context (ords : MapOrders) (h : Heap) (cg : callgraph.Graph).
Context (Hwf : well_formed h) (Hcallers : callers_resolve h).

Lemma end_returns root n :
  node_or_nil h n → ∃ r, end_ (ords n) h root n = Ok r.
Proof.
  intros Hn. destruct n as [a|]; [|by eexists].
  destruct Hn as [nd Ha]. pose proof (Hwf a nd Ha) as Hres. simpl in Hres.
  rewrite (end_resolved _ _ _ _ _ Ha Hres). by eexists.
Qed.

Lemma search_callers_returns rec ins st :
  (∀ n st, node_or_nil h n → rec n st ≠ RuntimePanic) →
  (∀ n st r, rec n st = Ok r → search_post ords h (callgraph.Root cg) n st r) →
  Forall (λ e, node_or_nil h (callgraph.Caller e)) ins →
  search_callers rec ins st ≠ RuntimePanic.
Proof.
  intros Hrec Hpost Hins. revert st.
  induction Hins as [|e ins He Hins IH]; intros st; simpl; [done|].
  destruct (rec (callgraph.Caller e) (push e st)) as [[found st1]| |] eqn:Hcall;
    simpl; [|by apply Hrec in Hcall|done].
  apply Hpost in Hcall as (_ & _ & Hfound). simpl in *.
  destruct found as [path|]; [done|].
  rewrite (pop_push _ _ _ Hfound). simpl. apply IH.
Qed.

Lemma search_returns fuel n st :
  node_or_nil h n → search ords h cg fuel n st ≠ RuntimePanic.
Proof.
  revert n st. induction fuel as [|fuel IH]; intros n st Hn; [done|].
  simpl. destruct (decide (n ∈ seen st)); [done|].
  destruct (end_returns (callgraph.Root cg) n Hn) as [[isend deadend] Hend].
  rewrite Hend. simpl. destruct deadend; [done|]. destruct isend; [done|].
  destruct (end_continue _ _ _ _ Hend) as (a & nd & -> & Ha & _ & _).
  unfold deref. rewrite Ha. simpl.
  apply search_callers_returns; [exact IH| |].
  - intros n' st' r. apply search_post_holds.
  - apply (Hcallers a nd Ha).
Qed.

End search_returns.

(** C3. The search terminates on every graph held in a (finite) store,
    cycles and self-recursive functions included: with a recursion
    budget of the number of nodes plus two, [pathToRoot] never runs out
    of it, and a larger budget changes nothing.  A call of [search] on
    a node already in [seen] returns nil at once and leaves the state
    as it was.  In a search that returns, the nodes that got past the
    test [!seen[n]] are pairwise distinct and at most one more than the
    nodes of the store (nil may be one of them), and the closure is
    entered at most once more than the graph has incoming edges.  On a
    graph whose edges lead to nodes of the store, the search returns a
    witness or nil (no runtime panic). *)
Theorem search_terminates_on_every_graph
    (ords : MapOrders) (h : Heap) (cg : callgraph.Graph) (p : ssa.Panic) :
  pathToRoot ords h cg p ≠ OutOfFuel ∧
  (∀ k, pathToRoot_fuel ords h cg (enough_fuel h + k) p = pathToRoot ords h cg p) ∧
  (∀ fuel n st, n ∈ seen st → search ords h cg (S fuel) n st = Ok (None, st)) ∧
  (∀ fuel n st,
     erase (search_work ords h cg fuel n st) = search ords h cg fuel n st) ∧
  (∀ fuel n st found st' w,
     search_work ords h cg fuel n st = Ok (found, st', w) →
     NoDup (expanded w) ∧
     length (expanded w) ≤ size h + 1 ∧
     calls w ≤ 1 + in_edge_count h) ∧
  (well_formed h → callers_resolve h → nodes_resolve h cg →
   ∃ found, pathToRoot ords h cg p = Ok found).
Proof.
  assert (search ords h cg (enough_fuel h) (callgraph.Nodes cg !! ssa.Parent p)
            initial_state ≠ OutOfFuel) as Hterm.
  { apply search_terminates, enough_fuel_suffices. }
  assert (pathToRoot ords h cg p ≠ OutOfFuel) as Hpath.
  { unfold pathToRoot, pathToRoot_fuel.
    destruct (search _ _ _ _ _ _) as [[found st]| |]; done. }
  split_and!.
  - done.
  - intros k. unfold pathToRoot, pathToRoot_fuel.
    by rewrite search_more_fuel.
  - intros fuel n st Hseen. simpl. by rewrite decide_True.
  - apply search_work_erase.
  - intros fuel n st found st' w Hw.
    apply search_work_post in Hw as (_ & Hnd & Hexp & Hcalls). simpl in *.
    split_and!; [done| |].
    + rewrite <- (size_list_to_set (C := gset (option positive))) by done.
      replace (size h + 1) with (S (size h)) by lia.
      rewrite <- size_universe. apply subseteq_size.
      intros m Hm%elem_of_list_to_set. by apply Hexp.
    + unfold in_edge_count.
      assert (unseen_in_edges h (seen st) ≤ unseen_in_edges h ∅)
        by (apply unseen_in_edges_mono; set_solver).
      lia.
  - intros Hwf Hcallers Hnodes. unfold pathToRoot, pathToRoot_fuel in *.
    assert (node_or_nil h (callgraph.Nodes cg !! ssa.Parent p)) as Hn.
    { destruct (callgraph.Nodes cg !! ssa.Parent p) as [a|] eqn:Ha; [|done].
      apply (Hnodes _ _ Ha). }
    pose proof (search_returns ords h cg Hwf Hcallers (enough_fuel h) _
                  initial_state Hn) as Hret.
    destruct (search _ _ _ _ _ _) as [[found st]| |]; [|done..].
    by exists found.
Qed.

(** * The theorems on the example program *)

(** C1 on the function [g], which defers [c]: a dead end, also when it
    is taken as the root. *)
Lemma end_dead_end_before_root_and_go_example :
  example.heap !! 7%positive = Some example.node_g ∧
  dead_end example.heap example.node_g ∧
  end_ listing_order example.heap (Some 7%positive) (Some 7%positive)
    = Ok (false, true).
Proof.
  assert (example.heap !! 7%positive = Some example.node_g) as Hg
    by reflexivity.
  assert (dead_end example.heap example.node_g) as Hdead by by_evaluation.
  split_and!; [done|done|].
  destruct (end_dead_end_before_root_and_go listing_order example.heap
              7%positive example.node_g Hg ltac:(by_evaluation) Hdead)
    as (_ & Hroot & _).
  exact Hroot.
Defined.

(** C4 on a panic placed in [main]. *)
Lemma panic_in_root_function_example :
  ∃ path,
    pathToRoot (always listing_order) example.heap example.graph example.panic_main
      = Ok (Some path) ∧
    (length path = 0 ∨ length path = 1) ∧ path = [].
Proof.
  apply (panic_in_root_function (always listing_order) example.heap example.graph
           example.panic_main 1%positive example.node_main).
  - reflexivity.
  - reflexivity.
  - reflexivity.
  - by_evaluation.
  - by_evaluation.
Defined.

(** C5 (amended) on the panic of [u], a function without a node. *)
Lemma absent_node_is_an_end_example :
  pathToRoot (always reverse_order) example.heap example.graph example.panic_u
    = Ok (Some []) ∧
  reported (always reverse_order) example.heap example.graph [example.panic_u] = Ok [].
Proof.
  destruct (absent_node_is_an_end (always reverse_order) example.heap example.graph
              example.panic_u) as (_ & Hpath & Hreported & _).
  - reflexivity.
  - by split.
Defined.

(** C7 on the example with two deferred calls in [g]: one run meets the
    group of [defer b()] first and the group of [defer c()] second, the
    other run the reverse; the search for the panic of [e], which goes
    through [g], and [end] at [g] give the same result in both. *)
Lemma search_is_deterministic_example :
  well_formed example_defers.heap ∧
  (range listing_order example_defers.defers_of_g).*2
    = [[Some 3%positive]; [Some 4%positive]] ∧
  (range reverse_order example_defers.defers_of_g).*2
    = [[Some 4%positive]; [Some 3%positive]] ∧
  pathToRoot (always listing_order) example_defers.heap example.graph
    example.panic_e
    = pathToRoot (always reverse_order) example_defers.heap example.graph
        example.panic_e ∧
  end_ listing_order example_defers.heap (Some 1%positive) (Some 7%positive)
    = end_ reverse_order example_defers.heap (Some 1%positive)
        (Some 7%positive).
Proof.
  assert (well_formed example_defers.heap) as Hwf by by_evaluation.
  destruct (search_is_deterministic (always listing_order)
              (always reverse_order) example_defers.heap example.graph
              example.panic_e Hwf) as [Hpath Hend].
  split_and!; [done|reflexivity|reflexivity|exact Hpath|apply Hend].
Defined.

(** C9 on the panic of [b], whose witness is [a -> b], [main -> a]. *)
Lemma witness_is_a_backward_chain_example :
  pathToRoot (always listing_order) example.heap example.graph example.panic_b
    = Ok (Some [example.a_b; example.main_a]) ∧
  callgraph.Callee example.a_b
    = callgraph.Nodes example.graph !! ssa.Parent example.panic_b ∧
  callgraph.Callee example.main_a = callgraph.Caller example.a_b.
Proof.
  assert (pathToRoot (always listing_order) example.heap example.graph example.panic_b
          = Ok (Some [example.a_b; example.main_a])) as Hpath
    by (vm_compute; reflexivity).
  destruct (witness_is_a_backward_chain (always listing_order) example.heap
              example.graph example.panic_b _ ltac:(by_evaluation) Hpath)
    as [Hhead Hnext].
  split_and!; [done| |].
  - by apply Hhead.
  - by apply (Hnext 0).
Defined.

(** C10 on the function [u], whose only use of recover is
    [defer recover()]. *)
Lemma hasRecover_ignores_defer_and_go_example :
  ssa.Defer 901 {| ssa.Value_ := ssa.Builtin "recover" |}
    ∈ ssa.Instrs (example.block
        [ssa.Defer 901 {| ssa.Value_ := ssa.Builtin "recover" |};
         ssa.PanicInstr example.panic_u]) ∧
  hasRecover example.fn_u = false.
Proof.
  split; [left|].
  destruct (hasRecover_ignores_defer_and_go example.fn_u) as [Hfalse _];
    [|exact Hfalse].
  intros b a c Hb Hc. apply list_elem_of_singleton in Hb as ->.
  simpl in Hc. apply elem_of_cons in Hc as [Hc|Hc]; [discriminate|].
  apply list_elem_of_singleton in Hc. discriminate.
Defined.

(** C3 on the panic of the self-recursive function [d]: the search
    returns. *)
Lemma search_terminates_on_every_graph_example :
  ∃ found,
    pathToRoot (always listing_order) example.heap example.graph example.panic_d
      = Ok found.
Proof.
  destruct (search_terminates_on_every_graph (always listing_order) example.heap
              example.graph example.panic_d) as (_ & _ & _ & _ & _ & Hreturns).
  apply Hreturns; by_evaluation.
Defined.

(** ** The analysis run on the example program *)

(** The panic of [b] reaches the root through [a]. *)
Example panic_b_reaches_root :
  pathToRoot (always listing_order) example.heap example.graph example.panic_b
    = Ok (Some [example.a_b; example.main_a]).
Proof. vm_compute. reflexivity. Qed.

(** The panic of the self-recursive [d] reaches [w], which [a] starts
    with a go statement; the edge of the go statement is not part of
    the path. *)
Example panic_d_reaches_goroutine :
  pathToRoot (always listing_order) example.heap example.graph example.panic_d
    = Ok (Some [example.w_d]).
Proof. vm_compute. reflexivity. Qed.

(** The panic of [e] is stopped in [g], which defers [c]. *)
Example panic_e_is_recovered :
  pathToRoot (always listing_order) example.heap example.graph example.panic_e
    = Ok None.
Proof. vm_compute. reflexivity. Qed.

(** The four panics are found, in an order that follows the map. *)
Example panics_of_the_example :
  findPanics listing_order example.program
    = [example.panic_b; example.panic_u; example.panic_d; example.panic_e] ∧
  findPanics reverse_order example.program
    = [example.panic_e; example.panic_d; example.panic_u; example.panic_b].
Proof. vm_compute. done. Qed.

(** What [main] prints. *)
Example report_of_the_example :
  reported (always listing_order) example.heap example.graph
    (findPanics listing_order example.program)
    = Ok [(example.panic_b, [example.a_b; example.main_a]);
          (example.panic_d, [example.w_d])].
Proof. vm_compute. reflexivity. Qed.

(** The work of the search for the panic of [d]: the closure is entered
    for [d], for [d] again through the edge [d -> d], and for [w]. *)
Example work_for_panic_d :
  ∃ st,
    search_work (always listing_order) example.heap example.graph
      (enough_fuel example.heap) (Some 6%positive) initial_state
    = Ok (Some [example.w_d], st,
          {| calls := 3; expanded := [Some 6%positive; Some 5%positive] |}).
Proof. eexists. vm_compute. reflexivity. Qed.

(** Why the theorems about [end] ask that deferred callees resolve: with
    a nil callee in one group and a recovering callee in another,
    [allrecovers] dereferences nil or not according to the group that
    the loop over [defers] meets first. *)
Example end_on_a_nil_callee :
  end_ listing_order example.broken_heap (Some 1%positive) (Some 7%positive)
    = RuntimePanic ∧
  end_ reverse_order example.broken_heap (Some 1%positive) (Some 7%positive)
    = Ok (false, true).
Proof. vm_compute. done. Qed.

(** * Further properties of the program *)

(** ** allrecovers *)

Lemma allrecovers_cons h f o :
  allrecovers h (f :: o) =
  match node_func h f with
  | None => RuntimePanic
  | Some fn => if hasRecover fn then allrecovers h o else Ok false
  end.
Proof.
  cbn [allrecovers]. unfold node_func, deref.
  destruct f as [a|]; simpl; [|done]. by destruct (h !! a).
Qed.

(** X1. The three outcomes of [allrecovers]: true when every callee is a
    node whose function calls recover; false when, after callees that
    all do, comes a node whose function does not; a runtime panic when,
    after callees that all do, comes a nil callee or a node without
    function.  What follows that callee in the list is not looked at. *)
Theorem allrecovers_outcomes (h : Heap) (o : list (option positive)) :
  (allrecovers h o = Ok true ↔ Forall (suppresses h) o) ∧
  (allrecovers h o = Ok false ↔
   ∃ o1 f o2 fn, o = o1 ++ f :: o2 ∧ Forall (suppresses h) o1 ∧
                 node_func h f = Some fn ∧ hasRecover fn = false) ∧
  (allrecovers h o = RuntimePanic ↔
   ∃ o1 f o2, o = o1 ++ f :: o2 ∧ Forall (suppresses h) o1 ∧
              node_func h f = None).
Proof.
  induction o as [|f o IH]; [|destruct IH as (IHt & IHf & IHp)].
  - split_and!; split; try done.
    + intros (o1 & f & o2 & fn & Ho & _). by destruct o1.
    + intros (o1 & f & o2 & Ho & _). by destruct o1.
  - rewrite allrecovers_cons.
    destruct (node_func h f) as [fn|] eqn:Hf;
      [destruct (hasRecover fn) eqn:Hrec|].
    + assert (suppresses h f) as Hsup by by exists fn.
      split_and!.
      * rewrite IHt, Forall_cons. tauto.
      * rewrite IHf. split.
        -- intros (o1 & g & o2 & gn & -> & Ho1 & Hg & Hgn).
           exists (f :: o1), g, o2, gn. split_and!; try done.
           by apply Forall_cons.
        -- intros (o1 & g & o2 & gn & Ho & Ho1 & Hg & Hgn).
           destruct o1 as [|f' o1]; simplify_eq/=; try congruence.
           apply Forall_cons in Ho1 as [_ Ho1]. by exists o1, g, o2, gn.
      * rewrite IHp. split.
        -- intros (o1 & g & o2 & -> & Ho1 & Hg).
           exists (f :: o1), g, o2. split_and!; try done.
           by apply Forall_cons.
        -- intros (o1 & g & o2 & Ho & Ho1 & Hg).
           destruct o1 as [|f' o1]; simplify_eq/=; try congruence.
           apply Forall_cons in Ho1 as [_ Ho1]. by exists o1, g, o2.
    + assert (¬ suppresses h f) as Hsup
        by (intros (fn' & Hfn' & Hrec'); congruence).
      split_and!.
      * split; [done|]. intros [? _]%Forall_cons. done.
      * split; [|done]. intros _. exists [], f, o, fn. by split_and!.
      * split; [done|]. intros (o1 & g & o2 & Ho & Ho1 & Hg).
        destruct o1 as [|f' o1]; simplify_eq/=; try congruence.
        apply Forall_cons in Ho1 as [? _]. done.
    + assert (¬ suppresses h f) as Hsup
        by (intros (fn' & Hfn' & Hrec'); congruence).
      split_and!.
      * split; [done|]. intros [? _]%Forall_cons. done.
      * split; [done|]. intros (o1 & g & o2 & gn & Ho & Ho1 & Hg & Hgn).
        destruct o1 as [|f' o1]; simplify_eq/=; try congruence.
        apply Forall_cons in Ho1 as [? _]. done.
      * split; [|done]. intros _. exists [], f, o. by split_and!.
Qed.

(** ** The first loop of end *)

(** X2. After the first loop of [end], the map [defers] holds, under the
    address of each [Defer] instruction that is the site of at least
    one outgoing edge, the callees of the edges of that site in the
    order of [n.Out]; it has no other key and no empty value, and the
    values together hold one callee for each edge whose site is a
    [Defer] instruction. *)
Theorem collect_defers_groups (out : list callgraph.Edge) :
  (∀ dn,
     collect_defers out !! dn =
     if decide (defer_group out dn = []) then None
     else Some (defer_group out dn)) ∧
  (∀ dn, dn ∈ dom (collect_defers out) ↔ ∃ o, o ∈ out ∧ is_defer_site o dn) ∧
  (∀ dn g, collect_defers out !! dn = Some g → g ≠ []).
Proof.
  assert (∀ dn,
     collect_defers out !! dn =
     if decide (defer_group out dn = []) then None
     else Some (defer_group out dn)) as Hlookup.
  { intros dn. destruct (decide (defer_group out dn = [])) as [Hnil|Hne].
    - destruct (collect_defers out !! dn) as [g|] eqn:Hg; [|done].
      apply collect_defers_lookup in Hg as [-> Hne]. done.
    - by apply collect_defers_lookup. }
  split_and!; [done| |].
  - intros dn. rewrite elem_of_dom, Hlookup.
    destruct (decide (defer_group out dn = [])) as [Hnil|Hne]; split.
    + by intros [? ?].
    + intros (o & Ho & Hs).
      assert (callgraph.Callee o ∈ defer_group out dn) as Hin
        by (apply elem_of_defer_group; by exists o).
      rewrite Hnil in Hin. by apply elem_of_nil in Hin.
    + intros _. destruct (defer_group out dn) as [|c g] eqn:Hg; [done|].
      assert (c ∈ defer_group out dn) as Hin by (rewrite Hg; left).
      apply elem_of_defer_group in Hin as (o & Ho & Hs & _). by exists o.
    + by eexists.
  - intros dn g Hg. by apply collect_defers_lookup in Hg as [_ Hne].
Qed.

(** ** The answers of end *)

(** X3. The decision table of [end] for a node whose deferred callees
    resolve, in every iteration order of [defers]: a dead end exactly
    when some deferred-call group is all-recovering; otherwise an end
    exactly when the node is the root or one of its incoming edges is a
    go statement; otherwise neither, and the search goes on through its
    callers. *)
Theorem end_decision_table
    (ord : MapOrder) (h : Heap) (root : option positive)
    (a : positive) (nd : callgraph.Node) :
  h !! a = Some nd →
  defers_resolve h nd →
  (end_ ord h root (Some a) = Ok (false, true) ↔ dead_end h nd) ∧
  (end_ ord h root (Some a) = Ok (true, false) ↔
   ¬ dead_end h nd ∧
   (Some a = root ∨ ∃ e, e ∈ callgraph.In nd ∧ is_go_site e = true)) ∧
  (end_ ord h root (Some a) = Ok (false, false) ↔
   ¬ dead_end h nd ∧ Some a ≠ root ∧
   ∀ e, e ∈ callgraph.In nd → is_go_site e = false).
Proof.
  intros Ha Hres. rewrite (end_resolved _ _ _ _ _ Ha Hres).
  rewrite <- some_go_site_true, <- some_go_site_false.
  destruct (decide (dead_end h nd)) as [Hdead|Hlive].
  { split_and!; split; try done; tauto. }
  destruct (decide (Some a = root)) as [Hroot|Hroot].
  { split_and!; split; try done; tauto. }
  destruct (some_go_site (callgraph.In nd)) eqn:Hgo.
  - split_and!; split; try done; try tauto.
    intros (_ & _ & ?). done.
  - split_and!; split; try done; try tauto.
    intros [_ [?|?]]; done.
Qed.

(** ** The state of the search *)

(** X4. A call of [search] that returns leaves [seen] with what it held
    before and with the node it was called on.  When it returns nil the
    stack is as it was before the call (every push has been popped);
    when it returns a path, that path is the stack, and the stack as it
    was before the call is a prefix of it. *)
Theorem search_keeps_stack_and_seen
    (ords : MapOrders) (h : Heap) (cg : callgraph.Graph)
    (fuel : nat) (n : option positive) (st st' : SearchState) (found : Found) :
  search ords h cg fuel n st = Ok (found, st') →
  seen st ⊆ seen st' ∧ n ∈ seen st' ∧
  match found with
  | None => stack st' = stack st
  | Some path => path = stack st' ∧ stack st `prefix_of` path
  end.
Proof.
  intros Hs. apply search_post_holds in Hs as (Hsub & Hn & Hfound).
  simpl in *. split_and!; [done|done|].
  destruct found as [path|]; [|done].
  destruct Hfound as (-> & ext & Hext & _). split; [done|]. by exists ext.
Qed.

(** ** The nodes of a witness *)

Lemma walk_classified ords h root n path :
  walk ords h root n path →
  ∀ i m, path_nodes n path !! i = Some m →
         end_ (ords m) h root m = Ok (bool_decide (i = length path), false).
Proof.
  induction 1 as [n Hend|a nd e path Ha Hend He Hwalk IH]; intros i m Hm.
  - destruct i as [|i]; simpl in Hm; [|done]. by simplify_eq.
  - destruct i as [|i]; simpl in Hm.
    + by simplify_eq.
    + rewrite (IH i m Hm). f_equal. f_equal. apply bool_decide_ext. simpl. lia.
Qed.

(** X5. Along a witness returned by [pathToRoot], [end] answers
    [(false, false)] at the node of the function of the panic and at
    the caller of every edge but the last, and [(true, false)] at the
    caller of the last edge (at the node of the panic itself when the
    path is empty): the path goes through no dead end and stops at the
    first node that is nil, the root or the target of a go statement. *)
Theorem witness_stops_at_the_first_end
    (ords : MapOrders) (h : Heap) (cg : callgraph.Graph) (p : ssa.Panic)
    (path : list callgraph.Edge) :
  pathToRoot ords h cg p = Ok (Some path) →
  ∀ i m,
    path_nodes (callgraph.Nodes cg !! ssa.Parent p) path !! i = Some m →
    end_ (ords m) h (callgraph.Root cg) m
      = Ok (bool_decide (i = length path), false).
Proof. intros Hpath. by apply walk_classified, pathToRoot_Some. Qed.

Section search_fresh.

Context (ords : MapOrders) (h : Heap) (cg : callgraph.Graph).

Local Abbreviation root := (callgraph.Root cg).

Lemma search_callers_fresh rec ins st r path :
  (∀ n st r, rec n st = Ok r → search_post ords h root n st r) →
  (∀ n st r path, rec n st = Ok r → r.1 = Some path →
     ∃ ext, path = stack st ++ ext ∧ NoDup (path_nodes n ext) ∧
            ∀ m, m ∈ path_nodes n ext → m ∉ seen st) →
  search_callers rec ins st = Ok r → r.1 = Some path →
  ∃ e ext, path = stack st ++ e :: ext ∧
           NoDup (path_nodes (callgraph.Caller e) ext) ∧
           ∀ m, m ∈ path_nodes (callgraph.Caller e) ext → m ∉ seen st.
Proof.
  intros Hpost Hfresh. revert st.
  induction ins as [|e ins IH]; intros st Hr Hpath; simpl in Hr.
  - by simplify_eq.
  - apply bind_Ok in Hr as ([found st1] & Hcall & Hr).
    pose proof (Hpost _ _ _ Hcall) as (Hsub & _ & Hfound). simpl in *.
    destruct found as [path1|].
    + simplify_eq/=. destruct Hfound as [-> _].
      destruct (Hfresh _ _ _ _ Hcall eq_refl) as (ext & Hext & Hnd & Hnew).
      simpl in *. exists e, ext. split_and!; [|done|done].
      by rewrite Hext, <- app_assoc.
    + rewrite (pop_push _ _ _ Hfound) in Hr. simpl in Hr.
      destruct (IH _ Hr Hpath) as (e' & ext & Hext & Hnd & Hnew). simpl in *.
      exists e', ext. split_and!; [done|done|].
      intros m Hm Hin. apply (Hnew m Hm). by apply Hsub.
Qed.

Lemma search_fresh fuel n st r path :
  search ords h cg fuel n st = Ok r → r.1 = Some path →
  ∃ ext, path = stack st ++ ext ∧ NoDup (path_nodes n ext) ∧
         ∀ m, m ∈ path_nodes n ext → m ∉ seen st.
Proof.
  revert n st r path.
  induction fuel as [|fuel IH]; intros n st r path Hr Hpath; [done|].
  simpl in Hr. destruct (decide (n ∈ seen st)) as [Hseen|Hseen].
  { by simplify_eq. }
  apply bind_Ok in Hr as ([isend deadend] & Hend & Hr).
  destruct deadend; [by simplify_eq|].
  destruct isend.
  { simplify_eq/=. exists []. split_and!.
    - by rewrite app_nil_r.
    - apply NoDup_singleton.
    - by intros m ->%list_elem_of_singleton. }
  apply bind_Ok in Hr as (nd & Hnd & Hr).
  eapply search_callers_fresh in Hr as (e & ext & Hext & Hnodup & Hnew);
    [| |exact IH|exact Hpath].
  - simpl in *. exists (e :: ext). split_and!; [done| |].
    + unfold path_nodes. simpl. apply NoDup_cons. split; [|done].
      intros Hin. apply (Hnew n Hin). set_solver.
    + intros m [->|Hm]%elem_of_cons; [done|].
      intros Hin. apply (Hnew m Hm). set_solver.
  - intros n' st' r'. apply search_post_holds.
Qed.

End search_fresh.

(** X6. A witness returned by [pathToRoot] goes through no node twice: the
    node of the function of the panic and the callers of its edges are
    pairwise distinct (a cycle of the call graph is never part of a
    witness). *)
Theorem witness_visits_no_node_twice
    (ords : MapOrders) (h : Heap) (cg : callgraph.Graph) (p : ssa.Panic)
    (path : list callgraph.Edge) :
  pathToRoot ords h cg p = Ok (Some path) →
  NoDup (path_nodes (callgraph.Nodes cg !! ssa.Parent p) path).
Proof.
  unfold pathToRoot, pathToRoot_fuel. intros Hp.
  apply bind_Ok in Hp as ([found st] & Hs & Hp). simplify_eq.
  eapply search_fresh in Hs as (ext & Hext & Hnodup & _); [|done].
  simpl in Hext. by subst.
Qed.

(** ** The search misses no path *)

Lemma finished_mono (ords : MapOrders) (h : Heap) (root : option positive)
    (s s' : gset (option positive)) (m : option positive) :
  s ⊆ s' → finished ords h root s m → finished ords h root s' m.
Proof.
  intros Hsub [Hnoend Hcallers]. split; [done|].
  intros Hend a nd e Hm Ha He. apply Hsub. by eapply Hcallers.
Qed.

Lemma closed_no_walk (ords : MapOrders) (h : Heap) (root : option positive)
    (s : gset (option positive)) (n : option positive)
    (path : list callgraph.Edge) :
  closed ords h root s ∅ → walk ords h root n path → n ∉ s.
Proof.
  intros Hclosed. induction 1 as [n Hend|a nd e path Ha Hend He Hwalk IH].
  - intros Hn. by destruct (Hclosed n Hn ltac:(set_solver)) as [Hnoend _].
  - intros Hn. destruct (Hclosed _ Hn ltac:(set_solver)) as [_ Hcallers].
    apply IH. by eapply Hcallers.
Qed.

Section search_complete.

Context (ords : MapOrders) (h : Heap) (cg : callgraph.Graph).

Local Abbreviation root := (callgraph.Root cg).

Lemma search_callers_closed
    (rec : option positive → SearchState → Res (Found * SearchState))
    (ins : list callgraph.Edge) (st st' : SearchState)
    (active : gset (option positive)) :
  (∀ n st r, rec n st = Ok r → search_post ords h root n st r) →
  (∀ (n : option positive) (st st' : SearchState)
     (active : gset (option positive)),
     active ⊆ seen st → closed ords h root (seen st) active →
     rec n st = Ok (None, st') → closed ords h root (seen st') active) →
  active ⊆ seen st → closed ords h root (seen st) active →
  search_callers rec ins st = Ok (None, st') →
  closed ords h root (seen st') active ∧ seen st ⊆ seen st' ∧
  ∀ e, e ∈ ins → callgraph.Caller e ∈ seen st'.
Proof.
  intros Hpost Hrec. revert st.
  induction ins as [|e ins IH]; intros st Hactive Hclosed Hr; simpl in Hr.
  - simplify_eq. split_and!; [done|done|]. intros e He. by apply elem_of_nil in He.
  - apply bind_Ok in Hr as ([found st1] & Hcall & Hr).
    pose proof (Hpost _ _ _ Hcall) as (Hsub & Hin & Hfound). simpl in *.
    destruct found as [path|]; [done|].
    apply (Hrec _ _ _ active) in Hcall; [|done|done].
    rewrite (pop_push _ _ _ Hfound) in Hr. simpl in Hr.
    apply IH in Hr as (Hclosed' & Hsub' & Hins); simpl; [|set_solver|done].
    simpl in *. split_and!; [done|set_solver|].
    intros e' [->|He']%elem_of_cons; [by apply Hsub'|by apply Hins].
Qed.

Lemma search_closed (fuel : nat) (n : option positive) (st st' : SearchState)
    (active : gset (option positive)) :
  active ⊆ seen st → closed ords h root (seen st) active →
  search ords h cg fuel n st = Ok (None, st') →
  closed ords h root (seen st') active.
Proof.
  revert n st st' active.
  induction fuel as [|fuel IH]; intros n st st' active Hactive Hclosed Hr;
    [done|].
  simpl in Hr. destruct (decide (n ∈ seen st)) as [Hseen|Hseen].
  { by simplify_eq. }
  apply bind_Ok in Hr as ([isend deadend] & Hend & Hr).
  assert (closed ords h root ({[n]} ∪ seen st) ({[n]} ∪ active)) as Hmark.
  { intros m Hm Hact. apply finished_mono with (s := seen st); [set_solver|].
    apply Hclosed; set_solver. }
  destruct deadend.
  { simplify_eq/=. intros m Hm Hact.
    destruct (decide (m = n)) as [->|Hne].
    - split; rewrite Hend; done.
    - apply Hmark; set_solver. }
  destruct isend; [done|].
  apply bind_Ok in Hr as (nd & Hnd & Hr).
  destruct (end_continue _ _ _ _ Hend) as (a & nd' & -> & Ha & _ & _).
  unfold deref in Hnd. rewrite Ha in Hnd. simplify_eq.
  apply (search_callers_closed _ _ _ _ ({[Some a]} ∪ active)) in Hr
    as (Hclosed' & Hsub & Hins); simpl; [| |exact IH|set_solver|done].
  - simpl in Hclosed', Hsub, Hins. intros m Hm Hact.
    destruct (decide (m = Some a)) as [->|Hne].
    + split; [by rewrite Hend|]. intros _ a' nd' e [= <-] Ha' He.
      rewrite Ha in Ha'. simplify_eq. by apply Hins.
    + apply Hclosed'; set_solver.
  - intros n' st'' r. apply search_post_holds.
Qed.

End search_complete.

(** X7. When [pathToRoot] returns nil there is no path at all: no chain of
    incoming edges leads from the node of the function of the panic,
    through nodes at which [end] answers [(false, false)], to a node at
    which [end] answers [(true, false)].  The set [seen], shared by the
    whole search, costs no witness. *)
Theorem search_misses_no_path
    (ords : MapOrders) (h : Heap) (cg : callgraph.Graph) (p : ssa.Panic) :
  pathToRoot ords h cg p = Ok None →
  ∀ path,
    ¬ walk ords h (callgraph.Root cg) (callgraph.Nodes cg !! ssa.Parent p) path.
Proof.
  unfold pathToRoot, pathToRoot_fuel. intros Hp path Hwalk.
  apply bind_Ok in Hp as ([found st] & Hs & Hp). simplify_eq.
  pose proof (search_post_holds _ _ _ _ _ _ _ Hs) as (_ & Hin & _).
  apply (search_closed _ _ _ _ _ _ _ ∅) in Hs; [|set_solver|].
  - by apply (closed_no_walk _ _ _ _ _ _ Hs Hwalk).
  - intros m Hm. set_solver.
Qed.

(** ** Behind a go statement *)

Lemma walk_starts_at_a_node ords h root n path :
  walk ords h root n path → node_or_nil h n.
Proof.
  destruct 1 as [n Hend|a nd e path Ha Hend He Hwalk].
  - destruct n as [a|]; [|done]. simpl.
    unfold end_, deref in Hend. by destruct (h !! a).
  - simpl. by rewrite Ha.
Qed.

Lemma last_path_nodes n path :
  last (path_nodes n path) = path_nodes n path !! length path.
Proof.
  rewrite last_lookup. unfold path_nodes. simpl. by rewrite length_fmap.
Qed.

(** A panic from whose function some chain of incoming edges leads to
    an end gets a witness, on a store whose pointers resolve. *)
Lemma pathToRoot_finds_a_walk ords h cg p chain :
  well_formed h → callers_resolve h →
  walk ords h (callgraph.Root cg) (callgraph.Nodes cg !! ssa.Parent p) chain →
  ∃ path,
    pathToRoot ords h cg p = Ok (Some path) ∧
    walk ords h (callgraph.Root cg) (callgraph.Nodes cg !! ssa.Parent p) path.
Proof.
  intros Hwf Hcallers Hchain.
  pose proof (walk_starts_at_a_node _ _ _ _ _ Hchain) as Hn.
  pose proof (search_returns ords h cg Hwf Hcallers (enough_fuel h) _
                initial_state Hn) as Hret.
  pose proof (search_terminates ords h cg (enough_fuel h)
                (callgraph.Nodes cg !! ssa.Parent p) initial_state
                (enough_fuel_suffices h initial_state)) as Hterm.
  destruct (search ords h cg (enough_fuel h)
              (callgraph.Nodes cg !! ssa.Parent p) initial_state)
    as [[found st]| |] eqn:Hs; [|done..].
  assert (pathToRoot ords h cg p = Ok found) as Hpath.
  { unfold pathToRoot, pathToRoot_fuel. by rewrite Hs. }
  destruct found as [path|].
  - exists path. split; [done|]. by apply pathToRoot_Some.
  - exfalso.
    pose proof (search_post_holds _ _ _ _ _ _ _ Hs) as (_ & Hin & _).
    apply (search_closed _ _ _ _ _ _ _ ∅) in Hs; [|set_solver|].
    + by apply (closed_no_walk _ _ _ _ _ _ Hs Hchain).
    + intros m Hm. set_solver.
Qed.

(** C2. A node N of the store that is not a dead end and is not the
    root but has an incoming edge whose site is a [Go] instruction is
    classified [(isend, isdeadend) = (true, false)], never a dead end;
    a search that reaches it returns the stack as it stands, without
    pushing any of its incoming edges; no witness returned by
    [pathToRoot] holds a [go] edge, or any other edge that enters a
    node at which [end] stops.  On a store whose pointers resolve, a
    panic from whose function some chain of incoming edges leads to an
    end gets a witness, and the witness stops at a node at which [end]
    stops; when every such chain stops at N (the raise site is
    reachable only across the go edge into N), the witness stops at N,
    the node on the near side of that edge. *)
Theorem go_edge_is_a_boundary
    (ords : MapOrders) (h : Heap) (cg : callgraph.Graph)
    (a : positive) (nd : callgraph.Node) :
  h !! a = Some nd →
  defers_resolve h nd →
  ¬ dead_end h nd →
  Some a ≠ callgraph.Root cg →
  (∃ e, e ∈ callgraph.In nd ∧ is_go_site e = true) →
  (∀ ord : MapOrder,
     end_ ord h (callgraph.Root cg) (Some a) = Ok (true, false)) ∧
  (∀ fuel st, Some a ∉ seen st →
     search ords h cg (S fuel) (Some a) st
       = Ok (Some (stack st), mark (Some a) st)) ∧
  (∀ p path, pathToRoot ords h cg p = Ok (Some path) →
     ∀ e, e ∈ path →
       is_go_site e = false ∧
       ∃ a' nd', a' ≠ a ∧ h !! a' = Some nd' ∧ e ∈ callgraph.In nd' ∧
                 end_ (ords (Some a')) h (callgraph.Root cg) (Some a')
                   = Ok (false, false)) ∧
  (well_formed h → callers_resolve h →
   ∀ p chain,
     walk ords h (callgraph.Root cg) (callgraph.Nodes cg !! ssa.Parent p)
       chain →
     (∃ path m,
        pathToRoot ords h cg p = Ok (Some path) ∧
        last (path_nodes (callgraph.Nodes cg !! ssa.Parent p) path) = Some m ∧
        end_ (ords m) h (callgraph.Root cg) m = Ok (true, false)) ∧
     ((∀ chain',
         walk ords h (callgraph.Root cg)
           (callgraph.Nodes cg !! ssa.Parent p) chain' →
         last (path_nodes (callgraph.Nodes cg !! ssa.Parent p) chain')
           = Some (Some a)) →
      ∃ path,
        pathToRoot ords h cg p = Ok (Some path) ∧
        last (path_nodes (callgraph.Nodes cg !! ssa.Parent p) path)
          = Some (Some a) ∧
        ∀ e, e ∈ path → is_go_site e = false)).
Proof.
  intros Ha Hres Hlive Hroot Hgo.
  assert (∀ ord : MapOrder,
            end_ ord h (callgraph.Root cg) (Some a) = Ok (true, false)) as Hend.
  { intros ord. rewrite (end_resolved _ _ _ _ _ Ha Hres).
    rewrite decide_False by done. rewrite decide_False by done.
    apply some_go_site_true in Hgo. by rewrite Hgo. }
  assert (∀ p path, pathToRoot ords h cg p = Ok (Some path) →
     ∀ e, e ∈ path →
       is_go_site e = false ∧
       ∃ a' nd', a' ≠ a ∧ h !! a' = Some nd' ∧ e ∈ callgraph.In nd' ∧
                 end_ (ords (Some a')) h (callgraph.Root cg) (Some a')
                   = Ok (false, false)) as Hedges.
  { intros p path Hpath e He. apply pathToRoot_Some in Hpath.
    destruct (walk_edges _ _ _ _ _ _ Hpath He) as (a' & nd' & Ha' & Hin & Hend').
    split.
    - destruct (end_continue _ _ _ _ Hend') as (? & ? & ? & ? & _ & Hnogo).
      simplify_eq. rewrite some_go_site_false in Hnogo. by apply Hnogo.
    - exists a', nd'. split_and!; try done. intros ->. congruence. }
  split_and!; [done| |done|].
  - intros fuel st Hseen. by apply search_at_end.
  - intros Hwf Hcallers p chain Hchain.
    destruct (pathToRoot_finds_a_walk _ _ _ _ _ Hwf Hcallers Hchain)
      as (path & Hpath & Hwalk).
    split.
    + destruct (lookup_lt_is_Some_2
                  (path_nodes (callgraph.Nodes cg !! ssa.Parent p) path)
                  (length path)) as [m Hm].
      { unfold path_nodes. simpl. rewrite length_fmap. lia. }
      exists path, m. split_and!; [done|by rewrite last_path_nodes|].
      rewrite (walk_classified _ _ _ _ _ Hwalk _ _ Hm).
      by rewrite bool_decide_eq_true_2.
    + intros Honly. exists path. split_and!; [done|by apply Honly|].
      intros e He. by destruct (Hedges _ _ Hpath e He) as [Hnogo _].
Qed.

(** ** What main prints *)

(** X8. The loop of [main] prints, in the order of [panics], exactly the
    panics for which [pathToRoot] returns at least one edge, each with
    that path; it completes exactly when every search returns. *)
Theorem main_prints_the_panics_with_an_edge
    (ords : MapOrders) (h : Heap) (cg : callgraph.Graph)
    (panics : list ssa.Panic) :
  (∀ rs, reported ords h cg panics = Ok rs →
         rs = omap (printable ords h cg) panics) ∧
  ((∃ rs, reported ords h cg panics = Ok rs) ↔
   Forall (λ p, ∃ found, pathToRoot ords h cg p = Ok found) panics).
Proof.
  induction panics as [|p panics [IHrs IHok]]; simpl.
  - split; [by intros rs [= <-]|]. split; [done|]. by eexists.
  - split.
    + intros rs Hrs. apply bind_Ok in Hrs as (found & Hfound & Hrs).
      apply bind_Ok in Hrs as (rest & Hrest & Hrs).
      rewrite (IHrs _ Hrest) in Hrs. cbn [omap list_omap].
      unfold printable at 1. rewrite Hfound.
      destruct found as [[|e path]|]; simpl in *; by simplify_eq.
    + rewrite Forall_cons, <- IHok. split.
      * intros [rs Hrs]. apply bind_Ok in Hrs as (found & Hfound & Hrs).
        apply bind_Ok in Hrs as (rest & Hrest & Hrs). split; by eexists.
      * intros [[found Hfound] [rest Hrest]]. rewrite Hfound, Hrest. simpl.
        destruct (decide (len found ≠ 0)); by eexists.
Qed.

(** X9. A panic placed in a function that a go statement starts (and that
    is no dead end) gets the path of length 0, and [main] prints nothing
    for it. *)
Theorem panic_in_go_function_is_not_printed
    (ords : MapOrders) (h : Heap) (cg : callgraph.Graph) (p : ssa.Panic)
    (a : positive) (nd : callgraph.Node) :
  callgraph.Nodes cg !! ssa.Parent p = Some a →
  h !! a = Some nd →
  defers_resolve h nd →
  ¬ dead_end h nd →
  (∃ e, e ∈ callgraph.In nd ∧ is_go_site e = true) →
  pathToRoot ords h cg p = Ok (Some []) ∧
  (∀ panics rs, reported ords h cg panics = Ok rs → p ∉ rs.*1).
Proof.
  intros Hnode Ha Hres Hlive Hgo.
  assert (pathToRoot ords h cg p = Ok (Some [])) as Hpath.
  { apply pathToRoot_at_end. intros ord. rewrite Hnode.
    rewrite (end_resolved _ _ _ _ _ Ha Hres).
    rewrite decide_False by done. apply some_go_site_true in Hgo.
    rewrite Hgo. by destruct (decide (Some a = callgraph.Root cg)). }
  split; [done|].
  intros panics rs Hrs Hin. apply list_elem_of_fmap in Hin as ([p' path] & -> & Hin).
  destruct (reported_elem _ _ _ _ _ _ _ Hrs Hin) as (_ & Hpath' & Hne).
  simpl in *. rewrite Hpath in Hpath'. by simplify_eq.
Qed.

(** ** The order of findPanics *)

(** X10. [findPanics] lists the functions in the order in which the range
    over [AllFunctions] meets them and, for each function, its panics
    block after block in the order of the instructions; so the panics
    of any one function stand in the result in source order, and the
    result of a program without panic instructions is empty. *)
Theorem findPanics_in_source_order (ord : MapOrder) (prog : Program) :
  findPanics ord prog
    = (range ord (AllFunctions prog)).*2 ≫= function_panics ∧
  (∀ a f, AllFunctions prog !! a = Some f →
          function_panics f `sublist_of` findPanics ord prog) ∧
  ((∀ a f, AllFunctions prog !! a = Some f → function_panics f = []) →
   findPanics ord prog = []).
Proof.
  rewrite findPanics_spec. split_and!; [done| |].
  - intros a f Haf.
    assert (f ∈ (range ord (AllFunctions prog)).*2) as Hf.
    { apply elem_of_range_values. by exists a. }
    apply list_elem_of_split in Hf as (fs1 & fs2 & ->).
    rewrite bind_app, bind_cons.
    apply sublist_inserts_l, sublist_inserts_r. done.
  - intros Hnone.
    assert (Forall (λ f, function_panics f = [])
              (range ord (AllFunctions prog)).*2) as Hall.
    { apply Forall_forall. intros f Hf.
      apply elem_of_range_values in Hf as [a Ha]. by eapply Hnone. }
    induction Hall as [|f fs Hf Hfs IH]; csimpl; [done|].
    by rewrite Hf, IH.
Qed.

(** ** mainPackage *)

Lemma first_main_skips pre pkgs :
  Forall (λ q, ssa_package.Object_Name q ≠ "main") pre →
  first_main (pre ++ pkgs) = first_main pkgs.
Proof.
  induction 1 as [|q pre Hq Hpre IH]; simpl; [done|].
  by rewrite decide_False.
Qed.

Lemma first_main_Return pkgs pkg :
  first_main pkgs = Return pkg →
  ∃ pre post, pkgs = pre ++ pkg :: post ∧
              Forall (λ q, ssa_package.Object_Name q ≠ "main") pre ∧
              ssa_package.Object_Name pkg = "main" ∧
              is_Some (ssa_package.Func pkg "main").
Proof.
  induction pkgs as [|q pkgs IH]; simpl; [done|].
  destruct (decide (ssa_package.Object_Name q = "main")) as [Hq|Hq].
  - destruct (ssa_package.Func q "main") as [f|] eqn:Hf; [|done].
    intros [= <-]. exists [], pkgs. split_and!; [done|constructor|done|].
    rewrite Hf. by eexists.
  - intros (pre & post & -> & Hpre & Hname & Hfunc)%IH.
    exists (q :: pre), post. split_and!; [done| |done|done].
    by constructor.
Qed.

(** X11. Without [-tests], [mainPackage] decides on the first package named
    main in the order of [AllPackages]: it returns that package when it
    has a function main and fails with "no func main() in main package"
    when it has none, whatever packages follow (a later package named
    main is not looked at); it fails with "no main package" when no
    package is named main.  With [-tests], it returns what
    [CreateTestMainPackage] returns for a non-empty list of packages and
    fails with "no tests" otherwise. *)
Theorem mainPackage_takes_the_first_main (prog : Packages) :
  (∀ pre pkg post,
     AllPackages prog = pre ++ pkg :: post →
     Forall (λ q, ssa_package.Object_Name q ≠ "main") pre →
     ssa_package.Object_Name pkg = "main" →
     mainPackage prog false =
     match ssa_package.Func pkg "main" with
     | Some _ => Return pkg
     | None => Error "no func main() in main package"
     end) ∧
  (Forall (λ q, ssa_package.Object_Name q ≠ "main") (AllPackages prog) ↔
   mainPackage prog false = Error "no main package") ∧
  (∀ main, mainPackage prog true = Return main ↔
           AllPackages prog ≠ [] ∧
           CreateTestMainPackage prog (AllPackages prog) = Some main) ∧
  (∀ err, mainPackage prog true = Error err → err = "no tests").
Proof.
  unfold mainPackage. split_and!.
  - intros pre pkg post -> Hpre Hname. rewrite first_main_skips by done.
    simpl. by rewrite decide_True.
  - split.
    + intros Hnone. rewrite <- (app_nil_r (AllPackages prog)).
      by rewrite first_main_skips.
    + generalize (AllPackages prog). intros pkgs.
      induction pkgs as [|q pkgs IH]; simpl; [constructor|].
      destruct (decide (ssa_package.Object_Name q = "main")) as [Hq|Hq].
      * by destruct (ssa_package.Func q "main").
      * intros Herr. constructor; [done|by apply IH].
  - intros main. destruct (AllPackages prog) as [|q pkgs]; simpl.
    + split; [done|]. by intros [? _].
    + destruct (CreateTestMainPackage prog (q :: pkgs)) as [m|]; split.
      * by intros [= <-].
      * by intros [_ [= <-]].
      * done.
      * by intros [_ ?].
  - intros err. destruct (AllPackages prog) as [|q pkgs]; simpl.
    + by intros [= <-].
    + destruct (CreateTestMainPackage prog (q :: pkgs)); [done|].
      by intros [= <-].
Qed.

(** ** main *)

Section main_correct.

Context {Conf IProg : Type} (w : World (Conf := Conf) (IProg := IProg)).

Lemma main_loop_reported h cg panics rs :
  reported (defers_orders w) h cg panics = Ok rs →
  main_loop w h cg panics =
  (rs ≫= (λ r, PanicReachesRoot r.1 :: (print_edge <$> r.2)), Ok ()).
Proof.
  revert rs. induction panics as [|p panics IH]; intros rs Hrs; simpl in *.
  - by simplify_eq.
  - apply bind_Ok in Hrs as (found & Hfound & Hrs).
    apply bind_Ok in Hrs as (rest & Hrest & Hrs).
    rewrite Hfound, (IH _ Hrest).
    destruct (decide (len found ≠ 0)); by simplify_eq.
Qed.


(** X13. When flag parsing returns without [-tests], on a program that
    loads and has no package named main, [main] prints
    "rect: no main package" on the standard error, after what the
    loader wrote there, and exits with status 1, whatever the pointer
    analysis would return: it is not asked. *)
Theorem main_without_main_package
    (cmdline args : list string) (conf : Conf) (out : string) (iprog : IProg) :
  Parse w cmdline = ParseReturns false args →
  args ≠ [] →
  FromArgs w args false = Return conf →
  Load w conf = (out, Return iprog) →
  Forall (λ q, ssa_package.Object_Name q ≠ "main")
         (AllPackages (CreateProgram w iprog).2) →
  main w cmdline =
  {| stdout := []; stderr := out +:+ "rect: no main package";
     status := Ok (Exit 1) |}.
Proof.
  intros Hparse Hargs Hfrom Hload Hnone. unfold main, loadProgram.
  rewrite Hparse.
  destruct args as [|arg args]; [done|]. rewrite Hfrom, Hload.
  destruct (CreateProgram w iprog) as [prog pkgs]. simpl in Hnone.
  unfold doCallgraph, mainPackage.
  rewrite <- (app_nil_r (AllPackages pkgs)), first_main_skips by done.
  done.
Qed.

(** X14. When flag parsing returns, loading, [mainPackage] and the pointer
    analysis succeed and every search returns, [main] returns after
    printing, for each panic of [findPanics] whose path has at least
    one edge and in the order of [findPanics], the line of the panic
    followed by one line for each edge of its path, from the function
    of the panic outwards; the searches run on the call graph that
    [DeleteSyntheticNodes] leaves, built for the one package that
    [mainPackage] returns. The standard error holds what the loader
    wrote and nothing else. *)
Theorem main_prints_the_witnesses
    (cmdline args : list string) (tests : bool) (conf : Conf) (out : string)
    (iprog : IProg) (pkg : ssa_package.Package) (cg0 : CallGraph)
    (rs : list (ssa.Panic * list callgraph.Edge)) :
  Parse w cmdline = ParseReturns tests args →
  args ≠ [] →
  FromArgs w args tests = Return conf →
  Load w conf = (out, Return iprog) →
  mainPackage (CreateProgram w iprog).2 tests = Return pkg →
  Analyze w {| Mains := [pkg]; BuildCallGraph := true |} = Return cg0 →
  reported (defers_orders w) (DeleteSyntheticNodes w cg0).1
    (DeleteSyntheticNodes w cg0).2
    (findPanics (functions_order w) (CreateProgram w iprog).1) = Ok rs →
  main w cmdline =
  {| stdout := rs ≫= (λ r, PanicReachesRoot r.1 :: (print_edge <$> r.2));
     stderr := out;
     status := Ok Returned |}.
Proof.
  intros Hparse Hargs Hfrom Hload Hmain Hanalyze Hrs. unfold main, loadProgram.
  rewrite Hparse.
  destruct args as [|arg args]; [done|]. rewrite Hfrom, Hload.
  destruct (CreateProgram w iprog) as [prog pkgs]. simpl in *.
  unfold doCallgraph. rewrite Hmain, Hanalyze.
  destruct (DeleteSyntheticNodes w cg0) as [h cg]. simpl in *.
  by rewrite (main_loop_reported _ _ _ _ Hrs).
Qed.

End main_correct.

(** In the example every chain that starts at [d] or at [w] stops at
    [w]: [d] is entered from [d] itself and from [w] only, and [w] is
    started by a go statement. *)
Lemma example_chains_from_d_stop_at_w n chain :
  walk (always listing_order) example.heap (callgraph.Root example.graph)
    n chain →
  n = Some 6%positive ∨ n = Some 5%positive →
  last (path_nodes n chain) = Some (Some 5%positive).
Proof.
  induction 1 as [n Hend|a nd e path Ha Hend He Hwalk IH].
  - intros [->| ->]; [|reflexivity]. vm_compute in Hend. discriminate.
  - intros [[= ->]|[= ->]].
    + assert (nd = example.node_d) as ->
        by (vm_compute in Ha; injection Ha as <-; reflexivity).
      unfold path_nodes in *. cbn [fmap list_fmap]. rewrite last_cons.
      apply elem_of_cons in He as [->|He].
      { rewrite IH; [done|by left]. }
      apply list_elem_of_singleton in He as ->.
      rewrite IH; [done|by right].
    + vm_compute in Hend. discriminate.
Qed.

(** C2 on the panic of [d], reachable only through [w], which [a]
    starts with a go statement: [end] stops at [w], and the witness is
    the edge [w -> d] alone; it stops at [w] and leaves out the edge of
    the go statement. *)
Lemma go_edge_is_a_boundary_example :
  example.a_go_w ∈ callgraph.In example.node_w ∧
  end_ listing_order example.heap (callgraph.Root example.graph)
    (Some 5%positive) = Ok (true, false) ∧
  pathToRoot (always listing_order) example.heap example.graph example.panic_d
    = Ok (Some [example.w_d]) ∧
  ∃ path,
    pathToRoot (always listing_order) example.heap example.graph
      example.panic_d = Ok (Some path) ∧
    last (path_nodes (Some 6%positive) path) = Some (Some 5%positive) ∧
    ∀ e, e ∈ path → is_go_site e = false.
Proof.
  assert (example.a_go_w ∈ callgraph.In example.node_w) as Hgo by left.
  assert (pathToRoot (always listing_order) example.heap example.graph
            example.panic_d = Ok (Some [example.w_d])) as Hpath
    by (vm_compute; reflexivity).
  destruct (go_edge_is_a_boundary (always listing_order) example.heap
              example.graph 5%positive example.node_w)
    as (Hend & _ & _ & Hbehind).
  - reflexivity.
  - by_evaluation.
  - by_evaluation.
  - discriminate.
  - by exists example.a_go_w.
  - split_and!; [done|exact (Hend listing_order)|done|].
    destruct (Hbehind ltac:(by_evaluation) ltac:(by_evaluation)
                example.panic_d [example.w_d]) as [_ Honly].
    + by apply pathToRoot_Some.
    + apply Honly. intros chain Hchain.
      apply (example_chains_from_d_stop_at_w _ _ Hchain). by left.
Defined.

(** * The further properties on the example program *)

(** X3 on the example: [a], which [end] sends the search through. *)
Lemma end_decision_table_example :
  end_ listing_order example.heap (Some 1%positive) (Some 2%positive)
    = Ok (false, false).
Proof.
  destruct (end_decision_table listing_order example.heap (Some 1%positive)
              2%positive example.node_a) as (_ & _ & Hcontinue).
  - reflexivity.
  - by_evaluation.
  - apply Hcontinue. split_and!; [by_evaluation|discriminate|].
    intros e ->%list_elem_of_singleton. reflexivity.
Defined.

(** X4 on the example: the search for the panic of [e] returns nil and
    leaves the stack empty. *)
Lemma search_keeps_stack_and_seen_example :
  ∃ st',
    search (always listing_order) example.heap example.graph
      (enough_fuel example.heap) (Some 8%positive) initial_state
      = Ok (None, st') ∧
    stack st' = [] ∧ Some 8%positive ∈ seen st'.
Proof.
  assert (∃ st',
    search (always listing_order) example.heap example.graph
      (enough_fuel example.heap) (Some 8%positive) initial_state
      = Ok (None, st')) as [st' Hs] by (eexists; vm_compute; reflexivity).
  exists st'. split; [done|].
  destruct (search_keeps_stack_and_seen _ _ _ _ _ _ _ _ Hs)
    as (_ & Hin & Hstack).
  by split.
Defined.

(** X5 on the example: the witness of the panic of [b] stops at the
    root. *)
Lemma witness_stops_at_the_first_end_example :
  pathToRoot (always listing_order) example.heap example.graph example.panic_b
    = Ok (Some [example.a_b; example.main_a]) ∧
  end_ listing_order example.heap (Some 1%positive) (Some 2%positive)
    = Ok (false, false) ∧
  end_ listing_order example.heap (Some 1%positive) (Some 1%positive)
    = Ok (true, false).
Proof.
  assert (pathToRoot (always listing_order) example.heap example.graph
            example.panic_b = Ok (Some [example.a_b; example.main_a])) as Hpath
    by (vm_compute; reflexivity).
  split_and!; [done| |].
  - exact (witness_stops_at_the_first_end _ _ _ _ _ Hpath 1
             (Some 2%positive) eq_refl).
  - exact (witness_stops_at_the_first_end _ _ _ _ _ Hpath 2
             (Some 1%positive) eq_refl).
Defined.

(** X6 on the example: the witness of the panic of [d] does not go
    round the cycle [d -> d]. *)
Lemma witness_visits_no_node_twice_example :
  pathToRoot (always listing_order) example.heap example.graph example.panic_d
    = Ok (Some [example.w_d]) ∧
  NoDup [Some 6%positive; Some 5%positive].
Proof.
  assert (pathToRoot (always listing_order) example.heap example.graph
            example.panic_d = Ok (Some [example.w_d])) as Hpath
    by (vm_compute; reflexivity).
  split; [done|].
  exact (witness_visits_no_node_twice _ _ _ _ _ Hpath).
Defined.

(** X7 on the example: no path leads from [e] to an end, the one
    through [g] meets a dead end. *)
Lemma search_misses_no_path_example :
  pathToRoot (always listing_order) example.heap example.graph example.panic_e
    = Ok None ∧
  ¬ walk (always listing_order) example.heap (Some 1%positive)
      (Some 8%positive) [example.g_e; example.main_g].
Proof.
  assert (pathToRoot (always listing_order) example.heap example.graph
            example.panic_e = Ok None) as Hpath by (vm_compute; reflexivity).
  split; [done|].
  exact (search_misses_no_path _ _ _ _ Hpath [example.g_e; example.main_g]).
Defined.

(** X9 on the example: a panic placed in [w] is not printed. *)
Lemma panic_in_go_function_is_not_printed_example :
  pathToRoot (always listing_order) example.heap example.graph
    example_run.panic_w = Ok (Some []) ∧
  reported (always listing_order) example.heap example.graph
    [example_run.panic_w] = Ok [].
Proof.
  destruct (panic_in_go_function_is_not_printed (always listing_order)
              example.heap example.graph example_run.panic_w 5%positive
              example.node_w) as [Hpath _].
  - reflexivity.
  - reflexivity.
  - by_evaluation.
  - by_evaluation.
  - exists example.a_go_w. split; [left|reflexivity].
  - split; [done|]. simpl. by rewrite Hpath.
Defined.


(** X13 on the example: a run on a program made of libraries only. *)
Lemma main_without_main_package_example :
  main (example_run.world example_run.library_packages) ["lib"] =
  {| stdout := []; stderr := "rect: no main package"; status := Ok (Exit 1) |}.
Proof.
  apply (main_without_main_package
           (example_run.world example_run.library_packages) ["lib"] ["lib"]
           () "" ()).
  - reflexivity.
  - discriminate.
  - reflexivity.
  - reflexivity.
  - simpl. repeat constructor. discriminate.
Defined.

(** X14 on the example: the panics of [b] and [d] are printed, those
    of [e] (recovered) and [u] (not in the graph) are not. *)
Lemma main_prints_the_witnesses_example :
  main (example_run.world example_run.packages) ["."] =
  {| stdout :=
       [PanicReachesRoot example.panic_b;
        AtSite (ssa.CallSite 201); AtSite (ssa.CallSite 101);
        PanicReachesRoot example.panic_d;
        AtSite (ssa.CallSite 501)];
     stderr := "";
     status := Ok Returned |}.
Proof.
  apply (main_prints_the_witnesses (example_run.world example_run.packages)
           ["."] ["."] false () "" () example_run.pkg_main
           (example.heap, example.graph)
           [(example.panic_b, [example.a_b; example.main_a]);
            (example.panic_d, [example.w_d])]).
  - reflexivity.
  - discriminate.
  - reflexivity.
  - reflexivity.
  - reflexivity.
  - reflexivity.
  - vm_compute. reflexivity.
Defined.
